(** * InterviewPrep: the question/category repository, its import merge and
      the derived list filter

    A shallow embedding of
    - [src/unnamed/part_001]                (types.ts: the data model),
    - [src/services/storageService.ts]      (the store with legacy-key recovery),
    - [src/unnamed/part_002]                (the store with the category list),
    - [src/unnamed/part_004]                (the category handlers of the UI),
    - [src/App.tsx]                         (the [filteredQuestions] view),
    - [src/services/geminiService.ts]       (the category tag of an answer),
    followed by the properties of the specification that concern them. *)

From Stdlib Require Import ZArith Lia Ascii String.
From stdpp Require Import base decidable option list gmap strings fin_maps sorting.

Local Open Scope string_scope.
Local Open Scope list_scope.
Local Open Scope Z_scope.

(** ** The data model ([types.ts]) *)

Record GroundingChunk := {
  web : option (string * string)          (* web?: { uri; title } *)
}.

(** [interface Question].  Timestamps are integer milliseconds.  [companyTag]
    and [sources] may be missing from a record that was read back from JSON
    text; the code guards every use of [companyTag] ([q.companyTag && ...]),
    so it is optional here as well. *)
Record Question := {
  id : string;
  text : string;
  answer : string;
  category : string;
  companyTag : option string;
  createdAt : Z;
  updatedAt : Z;
  isAiGenerated : bool;
  sources : option (list GroundingChunk)
}.

(** [q.category = c], the only field assignment of the sources. *)
Definition set_category (c : string) (q : Question) : Question :=
  {| id := id q; text := text q; answer := answer q; category := c;
     companyTag := companyTag q; createdAt := createdAt q;
     updatedAt := updatedAt q; isAiGenerated := isAiGenerated q;
     sources := sources q |}.

Definition DEFAULT_CATEGORIES : list string :=
  [ "Algorithm"; "Reinforcement Learning"; "SFT"; "Machine Learning"; "NLP";
    "Multimodal"; "Software Engineering"; "Behavioral"; "Other" ].

(** ** The JavaScript runtime the services rely on *)

Module JS.

(** Exceptions.  [Error msg] is [new Error(msg)]. *)
Inductive exn :=
| SyntaxError
| TypeError
| Error (msg : string).

(** A JSON value that is not an array.  Numbers are integers here, and the
    fields of an object are kept flat. *)
Inductive scalar :=
| JNull
| JBool (b : bool)
| JNum (n : Z)
| JStr (s : string)
| JObj (fields : list (string * Z)).

(** What [JSON.parse] yields: an array whose elements have the static type
    [A] of the TypeScript sources, or any value that is not an array. *)
Inductive JSON (A : Type) :=
| Arr (items : list A)
| NonArr (v : scalar).
Global Arguments Arr {A} items.
Global Arguments NonArr {A} v.

(** A string held by [localStorage], seen through [JSON.parse]: the empty
    string (the only falsy string), a non-empty string that [JSON.parse]
    rejects, or the text of a JSON document. *)
Inductive DOMString (A : Type) :=
| Empty
| Junk
| Doc (v : JSON A).
Global Arguments Empty {A}.
Global Arguments Junk {A}.
Global Arguments Doc {A} v.

(** [if (stored)] on the result of [getItem]: [null] and [""] are falsy. *)
Definition truthy {A} (stored : option (DOMString A)) : bool :=
  match stored with
  | None | Some Empty => false
  | Some _ => true
  end.

(** Truthiness of a string value ([q.id && q.text]). *)
Definition truthy_string (s : string) : bool :=
  match s with
  | EmptyString => false
  | _ => true
  end.

(** [JSON.stringify] of a value of this model: the text of the document
    with that value, so that parsing it again gives the value back. *)
Definition JSON_stringify {A} (v : JSON A) : DOMString A := Doc v.

(** *** Computations: a state that survives a throw, and an outcome *)

Definition M (Σ A : Type) : Type := Σ → (exn + A) * Σ.

Global Instance M_ret {Σ} : MRet (M Σ) := λ A (a : A) σ, (inr a, σ).

Global Instance M_bind {Σ} : MBind (M Σ) := λ A B (k : A → M Σ B) (m : M Σ A) σ,
  match m σ with
  | (inl e, σ') => (inl e, σ')
  | (inr a, σ') => k a σ'
  end.

Definition throw {Σ A} (e : exn) : M Σ A := λ σ, (inl e, σ).

(** [try { body } catch (e) { handler }]: what the body wrote stays written. *)
Definition try_catch {Σ A} (body : M Σ A) (handler : exn → M Σ A) : M Σ A := λ σ,
  match body σ with
  | (inl e, σ') => handler e σ'
  | (inr a, σ') => (inr a, σ')
  end.

(** The state a computation leaves behind, whether it returned or threw. *)
Definition exec {Σ A} (m : M Σ A) (σ : Σ) : Σ := snd (m σ).

Definition JSON_parse {Σ A} (s : option (DOMString A)) : M Σ (JSON A) :=
  match s with
  | Some (Doc v) => mret v
  | _ => throw SyntaxError
  end.

(** *** Strings

    A [string] holds a text in UTF-8: a character of ASCII is one byte
    below 128, any other character is a run of bytes from 128 up.

    [String.prototype.toLowerCase] and [String.prototype.trim] are built
    into the platform and follow the character tables of the Unicode
    standard.  They are not code of the repository and are not rewritten
    here: the functions that call them take them from a [Runtime].  What is
    known of them is what they do to texts of ASCII, where the tables are
    the letters [A] to [Z] and six white-space characters, and that trimming
    a trimmed text changes nothing ([Faithful]). *)

Class Runtime := {
  toLowerCase : string → string;
  trim : string → string
}.

(** Every character of [s] is a character of ASCII. *)
Definition ascii_only (s : string) : Prop :=
  Forall (λ c, (N_of_ascii c < 128)%N) (list_ascii_of_string s).

Definition lower_ascii (c : ascii) : ascii :=
  let n := N_of_ascii c in
  if ((65 <=? n) && (n <=? 90))%N then ascii_of_N (n + 32) else c.

(** [toLowerCase] as it is on a text of ASCII. *)
Fixpoint ascii_toLowerCase (s : string) : string :=
  match s with
  | EmptyString => EmptyString
  | String c s' => String (lower_ascii c) (ascii_toLowerCase s')
  end.

(** The white space of ASCII: tab, line feed, vertical tab, form feed,
    carriage return and space. *)
Definition is_space (c : ascii) : bool :=
  let n := N_of_ascii c in
  (((9 <=? n) && (n <=? 13)) || (n =? 32))%N.

Fixpoint ascii_trimStart (s : string) : string :=
  match s with
  | EmptyString => EmptyString
  | String c s' => if is_space c then ascii_trimStart s' else s
  end.

Fixpoint ascii_trimEnd (s : string) : string :=
  match s with
  | EmptyString => EmptyString
  | String c s' =>
      match ascii_trimEnd s' with
      | EmptyString => if is_space c then EmptyString else String c EmptyString
      | rest => String c rest
      end
  end.

(** [trim] as it is on a text of ASCII. *)
Definition ascii_trim (s : string) : string := ascii_trimEnd (ascii_trimStart s).

(** What is known of the built-in functions. *)
Record Faithful (R : Runtime) : Prop := {
  toLowerCase_ascii : ∀ s, ascii_only s → toLowerCase s = ascii_toLowerCase s;
  trim_ascii : ∀ s, ascii_only s → trim s = ascii_trim s;
  trim_trim : ∀ s, trim (trim s) = trim s
}.

(** The built-in functions of a platform whose tables end with ASCII; it
    serves to run the code on texts of ASCII. *)
Definition ascii_runtime : Runtime :=
  {| toLowerCase := ascii_toLowerCase; trim := ascii_trim |}.

Fixpoint startsWith (s prefix : string) {struct prefix} : bool :=
  match prefix, s with
  | EmptyString, _ => true
  | String _ _, EmptyString => false
  | String a prefix', String b s' =>
      if decide (a = b) then startsWith s' prefix' else false
  end.

(** [String.prototype.includes]. *)
Fixpoint includes (s sub : string) : bool :=
  startsWith s sub ||
  match s with
  | EmptyString => false
  | String _ s' => includes s' sub
  end.

(** *** Arrays *)

(** [Array.prototype.findIndex]: [None] stands for [-1]. *)
Definition findIndex {A} (P : A → Prop) `{!∀ x, Decision (P x)}
    (l : list A) : option nat :=
  fst <$> list_find P l.

(** [Array.prototype.indexOf] on an array of strings. *)
Definition indexOf (l : list string) (x : string) : option nat :=
  findIndex (λ y, y = x) l.

(** [Array.prototype.sort(cmp)].  The sort of the language is stable: when
    [cmp] is a consistent comparator the result is the one stable
    arrangement, which insertion from the right computes.  [a] is placed
    after [b] exactly when [cmp a b > 0]. *)
Fixpoint sort_insert {A} (cmp : A → A → Z) (x : A) (l : list A) : list A :=
  match l with
  | [] => [x]
  | y :: l' => if (0 <? cmp x y)%Z then y :: sort_insert cmp x l' else x :: y :: l'
  end.

Fixpoint sort {A} (cmp : A → A → Z) (l : list A) : list A :=
  match l with
  | [] => []
  | x :: l' => sort_insert cmp x (sort cmp l')
  end.

(** *** [Map]: keys in insertion order *)

Definition Map (K V : Type) : Type := list (K * V).

(** [map.set(k, v)]: an existing key keeps its place and takes the new
    value, a new key goes to the end. *)
Fixpoint Map_set {K V} `{!EqDecision K} (k : K) (v : V) (m : Map K V) : Map K V :=
  match m with
  | [] => [(k, v)]
  | (k', v') :: m' =>
      if decide (k' = k) then (k', v) :: m' else (k', v') :: Map_set k v m'
  end.

(** [new Map(entries)]. *)
Definition Map_new {K V} `{!EqDecision K} (entries : list (K * V)) : Map K V :=
  fold_left (λ m e, Map_set (fst e) (snd e) m) entries [].

(** [Array.from(map.values())]. *)
Definition Map_values {K V} (m : Map K V) : list V := snd <$> m.

(** The finite map that a [Map] denotes once the order of its keys is
    forgotten; [map.get(k)] is a lookup in it. *)
Definition Map_view {K V} `{Countable K} (m : Map K V) : gmap K V :=
  list_to_map m.

End JS.

(** ** [src/services/storageService.ts]: the store with legacy-key recovery *)

Module LegacyStorage.
Import JS.

(** [localStorage]: every key that is present holds a string. *)
Abbreviation Storage := (gmap string (DOMString Question)).

Definition STORAGE_KEY : string := "interview_prep_questions_v1".
Definition LEGACY_KEYS : list string :=
  [ "interview_questions"; "interview_prep_questions"; "interview_app_data" ].

Definition getItem (key : string) : M Storage (option (DOMString Question)) :=
  λ ls, (inr (ls !! key), ls).

Definition setItem (key : string) (value : DOMString Question) : M Storage () :=
  λ ls, (inr (), <[key := value]> ls).

(** The body of [for (const legacyKey of LEGACY_KEYS) { ... }].  [Some parsed]
    is the [return parsed] inside the loop; [None] means that the loop ran to
    its end.  The inner [catch] only has [continue]. *)
Fixpoint legacy_loop (keys : list string) : M Storage (option (JSON Question)) :=
  match keys with
  | [] => mret None
  | legacyKey :: keys' =>
      legacyData ← getItem legacyKey;
      if truthy legacyData then
        found ← try_catch
          (parsed ← JSON_parse legacyData;
           match parsed with
           | Arr items =>
               if bool_decide (0 < length items)%nat then
                 setItem STORAGE_KEY (JSON_stringify parsed);;
                 mret (Some parsed)
               else mret None
           | NonArr _ => mret None
           end)
          (λ e, mret None);
        match found with
        | Some parsed => mret (Some parsed)
        | None => legacy_loop keys'
        end
      else legacy_loop keys'
  end.

Definition getQuestions : M Storage (JSON Question) :=
  try_catch
    (stored ← getItem STORAGE_KEY;
     if truthy stored then JSON_parse stored
     else
       recovered ← legacy_loop LEGACY_KEYS;
       match recovered with
       | Some parsed => mret parsed
       | None => mret (Arr [])
       end)
    (λ e, mret (Arr [])).

(** A legacy key that the recovery adopts: it holds a non-empty array. *)
Definition adoptable (ls : Storage) (k : string) (items : list Question) : Prop :=
  ls !! k = Some (Doc (Arr items)) ∧ items ≠ [].

End LegacyStorage.

(** ** [src/unnamed/part_002]: the store with the category list *)

Module CategoryStorage.
Import JS.

(** The two keys of this variant and the type of what is kept under each. *)
Inductive key : Type → Type :=
| STORAGE_KEY : key Question            (* 'interview_prep_questions_v1' *)
| CATEGORIES_KEY : key string.          (* 'interview_prep_categories_v1' *)

(** What the service reads and writes: the two [localStorage] items, and the
    array object that [types.ts] exports as [DEFAULT_CATEGORIES], which
    [getCategories] hands out as it is. *)
Record Heap := {
  questions_item : option (DOMString Question);
  categories_item : option (DOMString string);
  default_categories : list string
}.

Definition getItem {A} (k : key A) : M Heap (option (DOMString A)) :=
  λ h, (inr (match k in key T return option (DOMString T) with
             | STORAGE_KEY => questions_item h
             | CATEGORIES_KEY => categories_item h
             end), h).

Definition setItem {A} (k : key A) (value : DOMString A) : M Heap () :=
  λ h, (inr (),
        match k in key T return DOMString T → Heap with
        | STORAGE_KEY => λ v,
            {| questions_item := Some v; categories_item := categories_item h;
               default_categories := default_categories h |}
        | CATEGORIES_KEY => λ v,
            {| questions_item := questions_item h; categories_item := Some v;
               default_categories := default_categories h |}
        end value).

(** Which array object a [string[]] is: [DEFAULT_CATEGORIES] itself, or an
    array of its own (fresh from [JSON.parse]). *)
Inductive array_ref :=
| DefaultsArray
| OwnArray.

Definition getCategories : M Heap (array_ref * JSON string) :=
  stored ← getItem CATEGORIES_KEY;
  if truthy stored then
    parsed ← JSON_parse stored;
    mret (OwnArray, parsed)
  else λ h, (inr (DefaultsArray, Arr (default_categories h)), h).

Definition saveCategories (categories : JSON string) : M Heap () :=
  setItem CATEGORIES_KEY (JSON_stringify categories).

Definition getQuestions : M Heap (JSON Question) :=
  try_catch
    (stored ← getItem STORAGE_KEY;
     if truthy stored then JSON_parse stored else mret (Arr []))
    (λ e, mret (Arr [])).

(** [categories[index] = newName]: the array object is updated where it lives. *)
Definition assign (r : array_ref) (categories : list string) (index : nat)
    (newName : string) : M Heap (list string) :=
  λ h, let categories' := <[index := newName]> categories in
       (inr categories',
        match r with
        | DefaultsArray =>
            {| questions_item := questions_item h;
               categories_item := categories_item h;
               default_categories := categories' |}
        | OwnArray => h
        end).

(** [questions.forEach(q => { if (q.category === from) { q.category = to;
    updated = true; } })]: the array after the loop, and [updated]. *)
Fixpoint recategorize (from to : string) (questions : list Question)
    (updated : bool) : list Question * bool :=
  match questions with
  | [] => ([], updated)
  | q :: rest =>
      if decide (category q = from) then
        let '(rest', updated') := recategorize from to rest true in
        (set_category to q :: rest', updated')
      else
        let '(rest', updated') := recategorize from to rest updated in
        (q :: rest', updated')
  end.

(** The common tail of [renameCategory] and [removeCategory]. *)
Definition cascade (from to : string) : M Heap () :=
  questions ← getQuestions;
  match questions with
  | Arr qs =>
      let '(qs', updated) := recategorize from to qs false in
      if updated then setItem STORAGE_KEY (JSON_stringify (Arr qs')) else mret ()
  | NonArr _ => throw TypeError                 (* no [forEach] *)
  end.

Definition renameCategory (oldName newName : string) : M Heap () :=
  '(r, categories) ← getCategories;
  match categories with
  | Arr cats =>
      match indexOf cats oldName with
      | None => mret ()                          (* index === -1 *)
      | Some index =>
          cats' ← assign r cats index newName;
          saveCategories (Arr cats');;
          cascade oldName newName
      end
  | NonArr (JStr s) =>
      (* a string has [indexOf]; writing to one of its indices throws *)
      if includes s oldName then throw TypeError else mret ()
  | NonArr _ => throw TypeError                 (* no [indexOf] *)
  end.

Definition removeCategory (name : string) : M Heap () :=
  '(_, stored) ← getCategories;
  match stored with
  | Arr cats =>
      let categories := List.filter (λ c, bool_decide (c ≠ name)) cats in
      saveCategories (Arr categories);;
      cascade name "Other"
  | NonArr _ => throw TypeError                 (* no [filter] *)
  end.

Definition saveQuestion (question : Question) : M Heap () :=
  questions ← getQuestions;
  match questions with
  | Arr qs =>
      let qs' :=
        match findIndex (λ q, id q = id question) qs with
        | Some existingIndex => <[existingIndex := question]> qs
        | None => question :: qs                 (* unshift *)
        end in
      setItem STORAGE_KEY (JSON_stringify (Arr qs'))
  | NonArr _ => throw TypeError                 (* no [findIndex] *)
  end.

Definition deleteQuestion (i : string) : M Heap () :=
  questions ← getQuestions;
  match questions with
  | Arr qs =>
      setItem STORAGE_KEY
        (JSON_stringify (Arr (List.filter (λ q, bool_decide (id q ≠ i)) qs)))
  | NonArr _ => throw TypeError
  end.

(** The callback of [newQuestions.forEach]. *)
Definition import_one (currentMap : Map string Question) (q : Question)
    : Map string Question :=
  if truthy_string (id q) && truthy_string (text q)
  then Map_set (id q) q currentMap
  else currentMap.

Definition importQuestions (newQuestions : JSON Question) : M Heap () :=
  match newQuestions with
  | NonArr _ => throw (Error "Invalid data format")
  | Arr batch =>
      currentQuestions ← getQuestions;
      match currentQuestions with
      | Arr current =>
          let currentMap := Map_new ((λ q, (id q, q)) <$> current) in
          let currentMap := fold_left import_one batch currentMap in
          let merged :=
            sort (λ a b, createdAt b - createdAt a) (Map_values currentMap) in
          setItem STORAGE_KEY (JSON_stringify (Arr merged))
      | NonArr _ => throw TypeError             (* no [map] *)
      end
  end.

(** *** Notions used to state the properties of this service *)

(** The collection behind the canonical key, as [getQuestions] reads it. *)
Definition stored_questions (h : Heap) : JSON Question :=
  match questions_item h with
  | Some (Doc v) => v
  | _ => Arr []
  end.

(** The heap after [localStorage.setItem(STORAGE_KEY, JSON.stringify(qs))]. *)
Definition with_questions (qs : list Question) (h : Heap) : Heap :=
  {| questions_item := Some (Doc (Arr qs));
     categories_item := categories_item h;
     default_categories := default_categories h |}.

(** What [saveQuestion] does to the array it read. *)
Definition upsert (question : Question) (qs : list Question) : list Question :=
  match findIndex (λ q, id q = id question) qs with
  | Some existingIndex => <[existingIndex := question]> qs
  | None => question :: qs
  end.

(** A sequence of [saveQuestion] calls, first call first. *)
Fixpoint save_all (calls : list Question) : M Heap () :=
  match calls with
  | [] => mret ()
  | question :: calls' => saveQuestion question;; save_all calls'
  end.

(** What the loop of [cascade] does to one record. *)
Definition retag (from to : string) (q : Question) : Question :=
  if decide (category q = from) then set_category to q else q.

(** The test of [import_one]: the record has a non-empty [id] and [text]. *)
Definition importable (q : Question) : bool :=
  truthy_string (id q) && truthy_string (text q).

(** What [importQuestions] writes when it read [current]. *)
Definition merged (current batch : list Question) : list Question :=
  sort (λ a b, createdAt b - createdAt a)
    (Map_values (fold_left import_one batch
                   (Map_new ((λ q, (id q, q)) <$> current)))).

(** Scanning a batch for the record that ends up under the key [k]: each
    importable record with that [id] replaces what was there. *)
Definition latest (k : string) (found : option Question) (q : Question)
    : option Question :=
  if importable q && bool_decide (id q = k) then Some q else found.

(** Every entry of the [Map] sits under the [id] of its record, once. *)
Definition keyed_by_id (m : Map string Question) : Prop :=
  NoDup m.*1 ∧ Forall (λ e, e.1 = id e.2) m.

(** The order [importQuestions] sorts into: [createdAt] descending. *)
Definition newest_first (qs : list Question) : Prop :=
  Sorted (λ a b, createdAt b ≤ createdAt a) qs.

End CategoryStorage.

(** ** The UI: [src/unnamed/part_004] (category handlers) and [src/App.tsx]
       (the filtered view) *)

Module App.
Import JS.

(** [refreshAll]: re-reads both stores into the component state, which is
    not part of the store. *)
Definition refreshAll : M CategoryStorage.Heap () :=
  CategoryStorage.getQuestions;;
  CategoryStorage.getCategories;;
  mret ().

(** [handleRemoveCat].  [confirmed] is the answer the user gives to the
    [confirm] dialog, should it be shown. *)
Definition handleRemoveCat (confirmed : bool) (name : string)
    : M CategoryStorage.Heap () :=
  if decide (name = "Other") then mret ()       (* alert(...); return *)
  else if confirmed then
    CategoryStorage.removeCategory name;;
    refreshAll
  else mret ().

Definition oneDay : Z := 24 * 60 * 60 * 1000.

(** The callback of [questions.filter] in [filteredQuestions].  [now] is
    [Date.now()]; [dateFilter] is the string behind the [DateFilter] type. *)
Definition matches `{R : Runtime} (now : Z)
    (selectedCategory dateFilter searchQuery : string) (q : Question) : bool :=
  let matchCategory :=
    bool_decide (selectedCategory = "All") ||
    bool_decide (category q = selectedCategory) in
  let matchDate :=
    if bool_decide (dateFilter ≠ "all") then
      let diff := now - updatedAt q in
      if bool_decide (dateFilter = "today") then bool_decide (diff < oneDay)
      else if bool_decide (dateFilter = "week") then bool_decide (diff < oneDay * 7)
      else if bool_decide (dateFilter = "month") then bool_decide (diff < oneDay * 30)
      else if bool_decide (dateFilter = "year") then bool_decide (diff < oneDay * 365)
      else true
    else true in
  let matchSearch :=
    includes (toLowerCase (text q)) (toLowerCase searchQuery) ||
    match companyTag q with
    | Some tag =>
        truthy_string tag && includes (toLowerCase tag) (toLowerCase searchQuery)
    | None => false
    end in
  matchCategory && matchDate && matchSearch.

Definition filteredQuestions `{R : Runtime} (now : Z) (questions : list Question)
    (selectedCategory dateFilter searchQuery : string) : list Question :=
  List.filter (matches now selectedCategory dateFilter searchQuery) questions.

(** *** The filter as the specification words it *)

(** [sub] occurs in [s]. *)
Definition is_substring (sub s : string) : Prop :=
  ∃ pre post, s = pre +:+ sub +:+ post.

(** Category predicate: pass-through on ["All"], else exact match. *)
Definition CategoryPredicate (categoryFilter : string) (q : Question) : Prop :=
  categoryFilter = "All" ∨ category q = categoryFilter.

(** Text predicate: the lower-cased search text occurs in the lower-cased
    [text], or a [companyTag] is there and it occurs in that. *)
Definition TextPredicate `{R : Runtime} (searchText : string) (q : Question)
    : Prop :=
  is_substring (toLowerCase searchText) (toLowerCase (text q)) ∨
  ∃ tag, companyTag q = Some tag ∧
         is_substring (toLowerCase searchText) (toLowerCase tag).

(** Two characters are the same letter when they are equal or are the
    capital and the small form of one of the 26 letters of ASCII. *)
Definition same_letter (a b : ascii) : Prop :=
  a = b ∨
  ∃ i : N, (i < 26)%N ∧
    ((N_of_ascii a = 65 + i ∧ N_of_ascii b = 97 + i)%N ∨
     (N_of_ascii a = 97 + i ∧ N_of_ascii b = 65 + i)%N).

(** Two texts are equal but for the case of their letters. *)
Definition equal_ignoring_case (s t : string) : Prop :=
  Forall2 same_letter (list_ascii_of_string s) (list_ascii_of_string t).


Definition dayMillis : Z := 86400000.

(** The number of days of a relative bucket; [None] when no bucket is
    active. *)
Definition bucket_days (dateFilter : string) : option Z :=
  if decide (dateFilter = "today") then Some 1
  else if decide (dateFilter = "week") then Some 7
  else if decide (dateFilter = "month") then Some 30
  else if decide (dateFilter = "year") then Some 365
  else None.

(** Date predicate: [now - updatedAt < N * dayMillis] in an active bucket. *)
Definition DatePredicate (now : Z) (dateFilter : string) (q : Question) : Prop :=
  match bucket_days dateFilter with
  | Some N => now - updatedAt q < N * dayMillis
  | None => True
  end.

(** [selects P l r]: [r] is the subsequence of [l], in the order of [l],
    made of the elements that satisfy [P]. *)
Inductive selects {A} (P : A → Prop) : list A → list A → Prop :=
| selects_nil : selects P [] []
| selects_keep x l r : P x → selects P l r → selects P (x :: l) (x :: r)
| selects_drop x l r : ¬ P x → selects P l r → selects P (x :: l) r.

End App.

(** ** [src/services/storageService.ts], second variant (lines 166-200):
       the writers over the store with legacy-key recovery *)

Module LegacyService.
Import JS LegacyStorage.

Definition saveQuestion (question : Question) : M Storage () :=
  questions ← getQuestions;
  match questions with
  | Arr qs =>
      let qs' :=
        match findIndex (λ q, id q = id question) qs with
        | Some existingIndex => <[existingIndex := question]> qs
        | None => question :: qs                 (* unshift: add to top *)
        end in
      setItem STORAGE_KEY (JSON_stringify (Arr qs'))
  | NonArr _ => throw TypeError                 (* no [findIndex] *)
  end.

Definition deleteQuestion (i : string) : M Storage () :=
  questions ← getQuestions;
  match questions with
  | Arr qs =>
      setItem STORAGE_KEY
        (JSON_stringify (Arr (List.filter (λ q, bool_decide (id q ≠ i)) qs)))
  | NonArr _ => throw TypeError                 (* no [filter] *)
  end.

Definition importQuestions (newQuestions : JSON Question) : M Storage () :=
  match newQuestions with
  | NonArr _ => throw (Error "Invalid data format")
  | Arr batch =>
      currentQuestions ← getQuestions;
      match currentQuestions with
      | Arr current =>
          let currentMap := Map_new ((λ q, (id q, q)) <$> current) in
          let currentMap :=
            fold_left CategoryStorage.import_one batch currentMap in
          let merged :=
            sort (λ a b, createdAt b - createdAt a) (Map_values currentMap) in
          setItem STORAGE_KEY (JSON_stringify (Arr merged))
      | NonArr _ => throw TypeError             (* no [map] *)
      end
  end.

(** The three writers, for statements about all of them. *)
Inductive writer :=
| Save (question : Question)
| Delete (i : string)
| Import (newQuestions : JSON Question).

Definition write (w : writer) : M Storage () :=
  match w with
  | Save question => saveQuestion question
  | Delete i => deleteQuestion i
  | Import newQuestions => importQuestions newQuestions
  end.

End LegacyService.

(** ** The seed file and the start of the application *)

Module Launch.
Import JS CategoryStorage.

(** What [fetch(DATA_FILE_URL)] and [response.json()] come to: the request
    fails, or a response arrives with its [ok] flag and a body that parses
    or not. *)
Inductive fetched :=
| FetchRejected
| Response (ok : bool) (body : option (JSON Question)).

(** [loadInitialDataFromProject] of [src/unnamed/part_002]; [None] is [null]. *)
Definition loadInitialDataFromProject (r : fetched) : option (list Question) :=
  match r with
  | Response true (Some (Arr data)) => Some data
  | _ => None                                (* caught, not ok, or no array *)
  end.

(** [init] of [src/unnamed/part_004]: the seed is merged at every start. *)
Definition init_merging (r : fetched) : M Heap () :=
  match loadInitialDataFromProject r with
  | Some projectData =>
      if bool_decide (0 < length projectData)%nat
      then importQuestions (Arr projectData)
      else mret ()
  | None => mret ()
  end;;
  App.refreshAll.

(** [localData.length] on what [getQuestions] handed back; [None] is
    [undefined]. *)
Definition length_of (localData : JSON Question) : M Heap (option Z) :=
  match localData with
  | Arr items => mret (Some (Z.of_nat (length items)))
  | NonArr JNull => throw TypeError
  | NonArr (JStr s) => mret (Some (Z.of_nat (String.length s)))
  | NonArr (JObj fields) =>
      mret ((λ found : nat * (string * Z), found.2.2) <$>
            list_find (λ f : string * Z, f.1 = "length") fields)
  | NonArr _ => mret None
  end.

(** [init] of [src/App.tsx]: the seed is merged only into an empty store. *)
Definition init_if_empty (r : fetched) : M Heap () :=
  match loadInitialDataFromProject r with
  | Some projectData =>
      if bool_decide (0 < length projectData)%nat then
        localData ← getQuestions;
        len ← length_of localData;
        if bool_decide (len = Some 0) then importQuestions (Arr projectData)
        else mret ()
      else mret ()
  | None => mret ()
  end;;
  App.refreshAll.

End Launch.

(** ** [src/unnamed/part_004]: the handlers of the form and of the category
       screen *)

Module QuestionDraft.

(** [type QuestionDraft = Omit<Question, 'id' | 'createdAt' | 'updatedAt'>],
    as the form holds it. *)
Record t := {
  text : string;
  answer : string;
  category : string;
  companyTag : string;
  isAiGenerated : bool;
  sources : option (list GroundingChunk)
}.

End QuestionDraft.

Module Handlers.
Import JS CategoryStorage.

(** [handleAddCategory].  [categories] and [newCatName] are the component
    state it reads; the result is the list it passes to [setCategories],
    if it does. *)
Definition handleAddCategory `{R : Runtime} (categories : list string)
    (newCatName : string) : M Heap (option (list string)) :=
  if negb (truthy_string (trim newCatName)) then mret None
  else if bool_decide (trim newCatName ∈ categories) then mret None  (* alert *)
  else
    let updated := categories ++ [trim newCatName] in
    saveCategories (Arr updated);;
    mret (Some updated).

Definition handleRenameCat `{R : Runtime} (oldName newName : string)
    : M Heap () :=
  if negb (truthy_string (trim newName)) || bool_decide (oldName = newName)
  then mret ()
  else
    renameCategory oldName newName;;
    App.refreshAll.

(** [handleSave].  [currentQuestion] is the record being edited, if any;
    [categorized] is what [autoCategorize(formData.text)] resolves to, [now]
    is [Date.now()] and [uuid] is [crypto.randomUUID()]. *)
Definition handleSave `{R : Runtime} (formData : QuestionDraft.t)
    (currentQuestion : option Question) (categorized : string) (now : Z)
    (uuid : string) : M Heap () :=
  if negb (truthy_string (trim (QuestionDraft.text formData)))
  then mret ()                                  (* alert; return *)
  else
    let finalCategory :=
      match currentQuestion with
      | None =>
          if bool_decide (QuestionDraft.category formData = "Other")
          then categorized
          else QuestionDraft.category formData
      | Some _ => QuestionDraft.category formData
      end in
    let newQuestion :=
      {| id := match currentQuestion with
               | Some current => id current
               | None => uuid
               end;
         createdAt := match currentQuestion with
                      | Some current => createdAt current
                      | None => now
                      end;
         updatedAt := now;
         text := QuestionDraft.text formData;
         answer := QuestionDraft.answer formData;
         category := finalCategory;
         companyTag := Some (QuestionDraft.companyTag formData);
         isAiGenerated := QuestionDraft.isAiGenerated formData;
         sources := QuestionDraft.sources formData |} in
    saveQuestion newQuestion;;
    App.refreshAll.

(** [String.prototype.endsWith]. *)
Fixpoint endsWith (s suffix : string) : bool :=
  bool_decide (s = suffix) ||
  match s with
  | EmptyString => false
  | String _ s' => endsWith s' suffix
  end.

(** What the user gets to see of [handleFileChange]. *)
Inductive feedback :=
| Silent
| Alert.

(** [handleFileChange], from the [onload] of the reader on.  [file] is the
    name of the chosen file, if one was chosen; [data] is its content as
    text; [sheet] is what the spreadsheet library makes of the content:
    it throws, or yields the rows of the first sheet. *)
Definition handleFileChange (file : option string) (data : DOMString Question)
    (sheet : exn + list Question) : M Heap feedback :=
  match file with
  | None => mret Silent
  | Some name =>
      try_catch
        (if endsWith name ".json" then
           parsed ← JSON_parse (Some data);
           importQuestions parsed;;
           App.refreshAll;;
           mret Silent
         else if endsWith name ".xlsx" || endsWith name ".xls" then
           json ← match sheet with
                  | inl e => throw e
                  | inr rows => mret rows
                  end;
           importQuestions (Arr json);;
           App.refreshAll;;
           mret Silent
         else mret Silent)
        (λ err, mret Alert)
  end.

(** *** Notions used to state the properties of the handlers *)

(** A label that the handlers take for empty: trimming leaves nothing. *)
Definition blank `{R : Runtime} (label : string) : Prop := trim label = "".

End Handlers.

(** ** [src/services/geminiService.ts]: reading the category tag off the
       answer of the model *)

Module Gemini.
Import JS.

(** The line terminators, which [.] does not match, are four: line feed,
    carriage return, and the line and the paragraph separator U+2028 and
    U+2029, which are the bytes 226 128 168 and 226 128 169 in UTF-8. *)
Definition line_feed : string := String "010" "".

Definition carriage_return : string := String "013" "".

Definition line_separator : string := String "226" (String "128" (String "168" "")).

Definition paragraph_separator : string :=
  String "226" (String "128" (String "169" "")).

Definition line_terminators : list string :=
  [line_feed; carriage_return; line_separator; paragraph_separator].

(** [s] begins with a line terminator. *)
Definition line_terminator_ahead (s : string) : bool :=
  existsb (startsWith s) line_terminators.

(** [(.*?)\]] after the opening bracket: the shortest run of characters
    other than line terminators that a closing bracket follows.  The result
    is the group and what comes after the bracket.  The bytes of a character
    that is not of ASCII are none of them a bracket, so the run can be
    followed byte by byte. *)
Fixpoint match_group (s : string) : option (string * string) :=
  match s with
  | EmptyString => None
  | String c s' =>
      if decide (c = "]"%char) then Some (EmptyString, s')
      else if line_terminator_ahead s then None
      else match match_group s' with
           | Some (group, rest) => Some (String c group, rest)
           | None => None
           end
  end.

(** [fullText.match(/^\[(.*?)\]/)], as the group and the text after the
    match. *)
Definition categoryMatch (fullText : string) : option (string * string) :=
  match fullText with
  | String c s => if decide (c = "["%char) then match_group s else None
  | EmptyString => None
  end.

(** The part of [generateInterviewAnswer] that splits [fullText] into the
    category and the answer.  Removing the match from the text leaves what
    comes after it, the match being at the start. *)
Definition split_answer `{R : Runtime} (fullText : string) : string * string :=
  match categoryMatch fullText with
  | Some (group, rest) => (trim group, trim rest)
  | None => ("Other", fullText)
  end.

(** A line terminator occurs in [s]. *)
Definition has_line_terminator (s : string) : bool :=
  existsb (includes s) line_terminators.

End Gemini.

(** ** Sessions: the operations of [src/unnamed/part_002] in any order *)

Module Session.
Import JS CategoryStorage.

Inductive command :=
| SaveQuestion (question : Question)
| DeleteQuestion (i : string)
| ImportQuestions (batch : list Question)
| RenameCategory (oldName newName : string)
| RemoveCategory (name : string).

Definition run (c : command) : M Heap () :=
  match c with
  | SaveQuestion question => saveQuestion question
  | DeleteQuestion i => deleteQuestion i
  | ImportQuestions batch => importQuestions (Arr batch)
  | RenameCategory oldName newName => renameCategory oldName newName
  | RemoveCategory name => removeCategory name
  end.

(** The heap after a sequence of commands, first command first; a command
    that throws leaves the heap as it has it and the next one runs. *)
Definition run_all (cs : list command) (h : Heap) : Heap :=
  fold_left (λ h c, exec (run c) h) cs h.

(** A store in order: the collection is an array with one record per id,
    and the category list can be read as an array. *)
Definition in_order (h : Heap) : Prop :=
  (∃ qs, fst (getQuestions h) = inr (Arr qs) ∧ NoDup (id <$> qs)) ∧
  (∃ r cats, fst (getCategories h) = inr (r, Arr cats)).

End Session.

(** ** Sample data, after the scenarios of the specification *)

Module Scenario.
Import JS.

(** A record with the given [id], [text], [category] and time stamp, and
    nothing else filled in. *)
Definition record (i t c : string) (stamp : Z) : Question :=
  {| id := i; text := t; answer := ""; category := c; companyTag := None;
     createdAt := stamp; updatedAt := stamp; isAiGenerated := false;
     sources := None |}.

(** Nothing stored yet. *)
Definition fresh : CategoryStorage.Heap :=
  {| CategoryStorage.questions_item := None;
     CategoryStorage.categories_item := None;
     CategoryStorage.default_categories := DEFAULT_CATEGORIES |}.

(** A store that holds the given collection. *)
Definition holding (qs : list Question) : CategoryStorage.Heap :=
  CategoryStorage.with_questions qs fresh.

End Scenario.

(** * Properties *)

(** ** The store with legacy-key recovery *)

Module LegacyStorageProofs.
Import JS LegacyStorage.

(** Unfolds the plumbing of the computations down to pairs. *)
Ltac run :=
  unfold try_catch, JSON_parse, throw, getItem, setItem, JSON_stringify, exec;
  unfold mbind, M_bind, mret, M_ret; simpl.

Lemma legacy_step_skip (ls : Storage) (k : string) (keys : list string) :
  (∀ items, ¬ adoptable ls k items) →
  legacy_loop (k :: keys) ls = legacy_loop keys ls.
Proof.
  intros Hno. simpl. run.
  destruct (ls !! k) as [[| |[items|v]]|] eqn:E; simpl; try reflexivity.
  destruct items as [|q items]; simpl; [reflexivity|].
  exfalso. apply (Hno (q :: items)). split; [exact E|discriminate].
Qed.

Lemma legacy_step_adopt (ls : Storage) (k : string) (keys : list string)
    (items : list Question) :
  adoptable ls k items →
  legacy_loop (k :: keys) ls
  = (inr (Some (Arr items)), <[STORAGE_KEY := Doc (Arr items)]> ls).
Proof.
  intros [E Hne]. simpl. run. rewrite E. simpl.
  destruct items as [|q items]; [congruence|]. reflexivity.
Qed.

Lemma adoptable_dec (ls : Storage) (k : string) :
  (∃ items, adoptable ls k items) ∨ (∀ items, ¬ adoptable ls k items).
Proof.
  unfold adoptable.
  destruct (ls !! k) as [[| |[[|q items]|v]]|] eqn:E;
    try (right; intros items [? ?]; congruence).
  left. exists (q :: items). split; [reflexivity|discriminate].
Qed.

(** The loop adopts the first key, in the order of the list, that holds a
    non-empty array, and writes it under the canonical key. *)
Lemma legacy_loop_first (keys : list string) (ls : Storage) :
  (∃ k items, k ∈ keys ∧ adoptable ls k items) →
  ∃ pre k post items,
    keys = pre ++ k :: post ∧
    adoptable ls k items ∧
    (∀ k' items', k' ∈ pre → ¬ adoptable ls k' items') ∧
    legacy_loop keys ls
    = (inr (Some (Arr items)), <[STORAGE_KEY := Doc (Arr items)]> ls).
Proof.
  induction keys as [|k0 keys IH]; intros (k & items & Hin & Had).
  - inversion Hin.
  - destruct (adoptable_dec ls k0) as [[items0 H0]|Hno].
    + exists [], k0, keys, items0. split; [reflexivity|]. split; [exact H0|].
      split; [intros ? ? Hnil; inversion Hnil|].
      by apply legacy_step_adopt.
    + assert (Hin' : k ∈ keys).
      { apply elem_of_cons in Hin as [->|Hin]; [|exact Hin].
        exfalso. by apply (Hno items). }
      destruct IH as (pre & k1 & post & items1 & -> & H1 & Hpre & Hrun).
      { by exists k, items. }
      exists (k0 :: pre), k1, post, items1. split; [reflexivity|].
      split; [exact H1|]. split.
      * intros k' items' Hk'. apply elem_of_cons in Hk' as [->|Hk'].
        -- apply Hno.
        -- by apply Hpre.
      * rewrite legacy_step_skip by exact Hno. exact Hrun.
Qed.

(** When nothing is adoptable the loop runs to its end and writes nothing. *)
Lemma legacy_loop_none (keys : list string) (ls : Storage) :
  (∀ k items, k ∈ keys → ¬ adoptable ls k items) →
  legacy_loop keys ls = (inr None, ls).
Proof.
  induction keys as [|k0 keys IH]; intros Hno; [reflexivity|].
  rewrite legacy_step_skip.
  - apply IH. intros k items Hk. apply Hno. by right.
  - intros items. apply Hno. by left.
Qed.

Lemma legacy_loop_returns (keys : list string) (ls : Storage) :
  ∃ r ls', legacy_loop keys ls = (inr r, ls').
Proof.
  induction keys as [|k0 keys IH]; [by eexists _, _|].
  destruct (adoptable_dec ls k0) as [[items0 H0]|Hno].
  - eexists _, _. by apply legacy_step_adopt.
  - rewrite legacy_step_skip by exact Hno. exact IH.
Qed.

(** [getQuestions], with the plumbing of [try]/[catch] resolved. *)
Lemma getQuestions_unfold (ls : Storage) :
  getQuestions ls =
  match ls !! STORAGE_KEY with
  | Some (Doc v) => (inr v, ls)
  | Some Junk => (inr (Arr []), ls)
  | Some Empty | None =>
      match legacy_loop LEGACY_KEYS ls with
      | (inr (Some parsed), ls') => (inr parsed, ls')
      | (inr None, ls') | (inl _, ls') => (inr (Arr []), ls')
      end
  end.
Proof.
  unfold getQuestions, try_catch, getItem, mbind, M_bind.
  destruct (ls !! STORAGE_KEY) as [[| |v]|]; cbn [truthy JSON_parse];
    try reflexivity;
    by destruct (legacy_loop LEGACY_KEYS ls) as [[e|[parsed|]] ls'].
Qed.

(** Reading a populated canonical key: the text is parsed and handed back as
    it is, the legacy keys are not consulted and nothing is written. *)
Lemma getQuestions_canonical (ls : Storage) (v : JSON Question) :
  ls !! STORAGE_KEY = Some (Doc v) →
  getQuestions ls = (inr v, ls).
Proof. intros E. by rewrite getQuestions_unfold, E. Qed.

(** [getQuestions] returns for every content of [localStorage]. *)
Lemma getQuestions_never_throws (ls : Storage) :
  ∃ v ls', getQuestions ls = (inr v, ls').
Proof.
  rewrite getQuestions_unfold.
  destruct (ls !! STORAGE_KEY) as [[| |v]|]; try by eexists _, _.
  - destruct (legacy_loop_returns LEGACY_KEYS ls) as (r & ls' & ->).
    destruct r; by eexists _, _.
  - destruct (legacy_loop_returns LEGACY_KEYS ls) as (r & ls' & ->).
    destruct r; by eexists _, _.
Qed.

(** Text under the canonical key that [JSON.parse] rejects reads as the empty
    collection. *)
Lemma getQuestions_unparseable (ls : Storage) :
  ls !! STORAGE_KEY = Some Junk →
  getQuestions ls = (inr (Arr []), ls).
Proof. intros E. by rewrite getQuestions_unfold, E. Qed.

(** C5, evaluated where it fails: the canonical key holds the text
    [{"a":1}], which parses but is not an array.  [getQuestions] does not
    throw, and hands the object back instead of the empty collection. *)
Lemma getQuestions_non_array_handed_back :
  let stored : JSON Question := NonArr (JObj [("a", 1)]) in
  let ls : Storage := {[ STORAGE_KEY := Doc stored ]} in
  getQuestions ls = (inr stored, ls) ∧ stored ≠ Arr [].
Proof. split; [reflexivity|discriminate]. Qed.

(** C6: with the canonical key absent and some legacy key holding a
    non-empty JSON array, the first read returns the records of the first
    such key in the priority order of [LEGACY_KEYS] and writes them under the
    canonical key; from then on a read of the canonical key yields the same
    records, whatever the legacy keys hold, and writes nothing. *)
Theorem legacy_migration_once (ls : Storage) :
  ls !! STORAGE_KEY = None →
  (∃ k items, k ∈ LEGACY_KEYS ∧ ls !! k = Some (Doc (Arr items)) ∧ items ≠ []) →
  ∃ pre k post items,
    LEGACY_KEYS = pre ++ k :: post ∧
    ls !! k = Some (Doc (Arr items)) ∧ items ≠ [] ∧
    (∀ k' items', k' ∈ pre → ls !! k' = Some (Doc (Arr items')) → items' = []) ∧
    getQuestions ls = (inr (Arr items), <[STORAGE_KEY := Doc (Arr items)]> ls) ∧
    exec getQuestions ls !! STORAGE_KEY = Some (Doc (Arr items)) ∧
    getQuestions (exec getQuestions ls) = (inr (Arr items), exec getQuestions ls) ∧
    (∀ ls2 : Storage,
       ls2 !! STORAGE_KEY = exec getQuestions ls !! STORAGE_KEY →
       getQuestions ls2 = (inr (Arr items), ls2)).
Proof.
  intros Habsent Hlegacy.
  destruct (legacy_loop_first LEGACY_KEYS ls) as
    (pre & k & post & items & Hsplit & [Hk Hne] & Hpre & Hloop).
  { destruct Hlegacy as (k & items & ? & ? & ?). exists k, items. by repeat split. }
  assert (Hget : getQuestions ls
                 = (inr (Arr items), <[STORAGE_KEY := Doc (Arr items)]> ls)).
  { by rewrite getQuestions_unfold, Habsent, Hloop. }
  assert (Hkey : exec getQuestions ls !! STORAGE_KEY = Some (Doc (Arr items))).
  { unfold exec. rewrite Hget. simpl. apply lookup_insert_eq. }
  exists pre, k, post, items. repeat split; try assumption.
  - intros k' items' Hk' E. destruct items' as [|q items']; [reflexivity|].
    exfalso. apply (Hpre k' (q :: items') Hk'). split; [exact E|discriminate].
  - by apply getQuestions_canonical.
  - intros ls2 E. apply getQuestions_canonical. by rewrite E.
Qed.

(** The scenario of the specification: only the first legacy key is
    populated, with one record. *)
Lemma legacy_migration_once_witness :
  let x := Scenario.record "x" "old Q" "Other" 1 in
  let ls : Storage := {[ "interview_questions" := Doc (Arr [x]) ]} in
  ∃ pre k post items,
    LEGACY_KEYS = pre ++ k :: post ∧
    ls !! k = Some (Doc (Arr items)) ∧ items ≠ [] ∧
    (∀ k' items', k' ∈ pre → ls !! k' = Some (Doc (Arr items')) → items' = []) ∧
    getQuestions ls = (inr (Arr items), <[STORAGE_KEY := Doc (Arr items)]> ls) ∧
    exec getQuestions ls !! STORAGE_KEY = Some (Doc (Arr items)) ∧
    getQuestions (exec getQuestions ls) = (inr (Arr items), exec getQuestions ls) ∧
    (∀ ls2 : Storage,
       ls2 !! STORAGE_KEY = exec getQuestions ls !! STORAGE_KEY →
       getQuestions ls2 = (inr (Arr items), ls2)).
Proof.
  intros x ls. apply (legacy_migration_once ls).
  - reflexivity.
  - exists "interview_questions", [x].
    split; [compute_done|]. split; [reflexivity|discriminate].
Defined.

End LegacyStorageProofs.

(** ** The runtime: sorting and [Map] *)

Module JSProofs.
Import JS.

Section sort_by_key.
Context {A : Type} (key : A → Z).

Local Abbreviation descending := (λ a b : A, key b - key a).
Local Abbreviation ordered := (Sorted (λ a b : A, key b ≤ key a)).

Lemma sort_insert_Permutation (cmp : A → A → Z) (x : A) (l : list A) :
  sort_insert cmp x l ≡ₚ x :: l.
Proof.
  induction l as [|y l IH]; simpl; [done|].
  destruct (0 <? cmp x y); [|done].
  rewrite IH. apply Permutation_swap.
Qed.

Lemma sort_Permutation (cmp : A → A → Z) (l : list A) : sort cmp l ≡ₚ l.
Proof.
  induction l as [|x l IH]; simpl; [done|].
  by rewrite sort_insert_Permutation, IH.
Qed.

Lemma sort_insert_ordered (x : A) (l : list A) :
  ordered l → ordered (sort_insert descending x l).
Proof.
  induction l as [|y l IH]; intros Hl; simpl.
  - by repeat constructor.
  - destruct (Z.ltb_spec 0 (key y - key x)) as [Hlt|Hge].
    + apply Sorted_inv in Hl as [Hl Hhd].
      constructor; [by apply IH|].
      destruct l as [|z l]; simpl.
      * constructor. lia.
      * destruct (0 <? key z - key x); constructor.
        -- by inversion Hhd.
        -- lia.
    + constructor; [done|]. constructor. lia.
Qed.

Lemma sort_ordered (l : list A) : ordered (sort descending l).
Proof.
  induction l as [|x l IH]; simpl; [constructor|].
  by apply sort_insert_ordered.
Qed.

(** Sorting leaves an array that is in order as it is. *)
Lemma sort_ordered_id (l : list A) : ordered l → sort descending l = l.
Proof.
  induction l as [|x l IH]; intros Hl; simpl; [done|].
  apply Sorted_inv in Hl as [Hl Hhd]. rewrite IH by done.
  destruct Hhd as [|y l' Hxy]; simpl; [done|].
  destruct (Z.ltb_spec 0 (key y - key x)); [lia|done].
Qed.

Lemma sort_idempotent (l : list A) :
  sort descending (sort descending l) = sort descending l.
Proof. apply sort_ordered_id, sort_ordered. Qed.

End sort_by_key.

Section map_facts.
Context {K V : Type} `{Countable K}.
Implicit Types (m : Map K V) (k : K) (v : V).

Lemma Map_view_set k v m : Map_view (Map_set k v m) = <[k := v]> (Map_view m).
Proof.
  unfold Map_view. induction m as [|[k' v'] m IH]; simpl; [done|].
  destruct (decide (k' = k)) as [->|Hne]; simpl.
  - by rewrite insert_insert_eq.
  - by rewrite IH, insert_insert_ne.
Qed.

Lemma Map_set_keys_in k v m : k ∈ m.*1 → (Map_set k v m).*1 = m.*1.
Proof.
  induction m as [|[k' v'] m IH]; simpl; intros Hin; [by inversion Hin|].
  destruct (decide (k' = k)) as [->|Hne]; simpl; [done|].
  f_equal. apply IH. apply elem_of_cons in Hin as [?|?]; [congruence|done].
Qed.

Lemma Map_set_new k v m : k ∉ m.*1 → Map_set k v m = m ++ [(k, v)].
Proof.
  induction m as [|[k' v'] m IH]; simpl; intros Hin; [done|].
  apply not_elem_of_cons in Hin as [Hne Hin].
  destruct (decide (k' = k)); [congruence|]. by rewrite IH.
Qed.

Lemma Map_set_keys k v m :
  (Map_set k v m).*1 = if decide (k ∈ m.*1) then m.*1 else m.*1 ++ [k].
Proof.
  destruct (decide (k ∈ m.*1)).
  - by apply Map_set_keys_in.
  - rewrite Map_set_new by done. by rewrite fmap_app.
Qed.

Lemma Map_set_NoDup k v m : NoDup m.*1 → NoDup (Map_set k v m).*1.
Proof.
  intros Hm. rewrite Map_set_keys. destruct (decide (k ∈ m.*1)); [done|].
  apply NoDup_app. split; [done|]. split.
  - intros x Hx Hk. apply list_elem_of_singleton in Hk. congruence.
  - apply NoDup_singleton.
Qed.

Lemma Map_set_elem_of_keys k v m : k ∈ (Map_set k v m).*1.
Proof.
  rewrite Map_set_keys. destruct (decide (k ∈ m.*1)); [done|].
  apply elem_of_app. right. by apply list_elem_of_singleton.
Qed.

Lemma Map_set_keys_mono k k' v m : k' ∈ m.*1 → k' ∈ (Map_set k v m).*1.
Proof.
  intros Hin. rewrite Map_set_keys. destruct (decide (k ∈ m.*1)); [done|].
  apply elem_of_app. by left.
Qed.

Lemma Map_fold_set_fresh (entries acc : list (K * V)) :
  NoDup (acc.*1 ++ entries.*1) →
  fold_left (λ m e, Map_set e.1 e.2 m) entries acc = acc ++ entries.
Proof.
  revert acc. induction entries as [|[k v] entries IH]; intros acc Hnd; simpl.
  - by rewrite app_nil_r.
  - simpl in Hnd. rewrite Map_set_new.
    + rewrite IH; [by rewrite <- app_assoc|].
      rewrite fmap_app. simpl. by rewrite <- app_assoc.
    + apply NoDup_app in Hnd as (_ & Hdis & _). intros Hk.
      apply (Hdis k Hk). by left.
Qed.

(** Entries with pairwise distinct keys make a [Map] with the same entries
    in the same order. *)
Lemma Map_new_NoDup (entries : list (K * V)) :
  NoDup entries.*1 → Map_new entries = entries.
Proof. intros Hnd. unfold Map_new. by rewrite Map_fold_set_fresh. Qed.

Lemma Map_fold_set_NoDup (entries acc : list (K * V)) :
  NoDup acc.*1 → NoDup (fold_left (λ m e, Map_set e.1 e.2 m) entries acc).*1.
Proof.
  revert acc. induction entries as [|[k v] entries IH]; intros acc Hnd; simpl.
  - done.
  - apply IH. by apply Map_set_NoDup.
Qed.

(** Two [Map]s with the same keys in the same order and the same value
    under each key are the same. *)
Lemma Map_eq m1 m2 :
  NoDup m1.*1 → m1.*1 = m2.*1 → Map_view m1 = Map_view m2 → m1 = m2.
Proof.
  unfold Map_view. revert m2.
  induction m1 as [|[k v1] m1 IH]; intros [|[k2 v2] m2] Hnd Hkeys Hview;
    csimpl in *; try done.
  injection Hkeys as <- Hkeys. apply NoDup_cons in Hnd as [Hk Hnd].
  assert (H1 : (list_to_map m1 : gmap K V) !! k = None).
  { by apply not_elem_of_list_to_map_1. }
  assert (H2 : (list_to_map m2 : gmap K V) !! k = None).
  { apply not_elem_of_list_to_map_1. by rewrite <- Hkeys. }
  assert (Hv : v1 = v2).
  { apply (f_equal (λ g : gmap K V, g !! k)) in Hview.
    rewrite !lookup_insert_eq in Hview. congruence. }
  subst v2. f_equal. apply IH; [done..|].
  apply map_eq. intros j. destruct (decide (j = k)) as [->|Hne].
  - by rewrite H1, H2.
  - apply (f_equal (λ g : gmap K V, g !! j)) in Hview.
    by rewrite !lookup_insert_ne in Hview.
Qed.

End map_facts.

(** *** The built-in functions on texts of ASCII *)

Lemma ascii_trimEnd_twice (s : string) :
  ascii_trimEnd (ascii_trimEnd s) = ascii_trimEnd s.
Proof.
  induction s as [|c s IH]; simpl; [done|].
  destruct (ascii_trimEnd s) as [|d rest] eqn:E.
  - destruct (is_space c) eqn:Hc; simpl; [done|]. by rewrite Hc.
  - simpl in *. by rewrite IH.
Qed.

Lemma ascii_trimStart_head (s : string) :
  ascii_trimStart s = "" ∨
  ∃ c rest, ascii_trimStart s = String c rest ∧ is_space c = false.
Proof.
  induction s as [|c s IH]; simpl; [by left|].
  destruct (is_space c) eqn:Hc; [done|]. right. by exists c, s.
Qed.

Lemma ascii_trimEnd_head (c : ascii) (s : string) :
  is_space c = false → ∃ rest, ascii_trimEnd (String c s) = String c rest.
Proof.
  intros Hc. simpl. rewrite Hc. destruct (ascii_trimEnd s); by eexists.
Qed.

Lemma ascii_trim_twice (s : string) : ascii_trim (ascii_trim s) = ascii_trim s.
Proof.
  unfold ascii_trim.
  destruct (ascii_trimStart_head s) as [->|(c & rest & -> & Hc)]; [done|].
  destruct (ascii_trimEnd_head c rest Hc) as [rest' E].
  rewrite E. cbn [ascii_trimStart]. rewrite Hc, <- E. apply ascii_trimEnd_twice.
Qed.

(** What is known of the built-in functions holds of [ascii_runtime]. *)
Lemma ascii_runtime_faithful : Faithful ascii_runtime.
Proof. split; [done|done|apply ascii_trim_twice]. Qed.

Lemma N_of_ascii_inj (a b : ascii) : N_of_ascii a = N_of_ascii b → a = b.
Proof.
  intros H. rewrite <- (ascii_N_embedding a), <- (ascii_N_embedding b).
  by rewrite H.
Qed.

Lemma lower_ascii_code (c : ascii) :
  N_of_ascii (lower_ascii c)
  = (if (65 <=? N_of_ascii c) && (N_of_ascii c <=? 90)
     then N_of_ascii c + 32 else N_of_ascii c)%N.
Proof.
  unfold lower_ascii. cbn zeta.
  destruct ((65 <=? N_of_ascii c) && (N_of_ascii c <=? 90))%N eqn:E; [|done].
  apply N_ascii_embedding.
  apply andb_true_iff in E as [_ E]. apply N.leb_le in E. lia.
Qed.



End JSProofs.

(** ** The store with the category list *)

Module CategoryStorageProofs.
Import JS CategoryStorage JSProofs.

(** *** Reading and writing the collection *)

Lemma getQuestions_run (h : Heap) :
  getQuestions h = (inr (stored_questions h), h).
Proof.
  unfold getQuestions, stored_questions, try_catch, getItem, mbind, M_bind.
  by destruct (questions_item h) as [[| |v]|].
Qed.

Lemma stored_with_questions (qs : list Question) (h : Heap) :
  stored_questions (with_questions qs h) = Arr qs.
Proof. reflexivity. Qed.

Lemma with_questions_twice (qs qs' : list Question) (h : Heap) :
  with_questions qs (with_questions qs' h) = with_questions qs h.
Proof. reflexivity. Qed.

Lemma setItem_questions (qs : list Question) (h : Heap) :
  setItem STORAGE_KEY (JSON_stringify (Arr qs)) h = (inr (), with_questions qs h).
Proof. reflexivity. Qed.

Lemma saveQuestion_run (h : Heap) (qs : list Question) (q : Question) :
  stored_questions h = Arr qs →
  saveQuestion q h = (inr (), with_questions (upsert q qs) h).
Proof.
  intros E. unfold saveQuestion, mbind, M_bind.
  rewrite getQuestions_run, E. apply setItem_questions.
Qed.

Lemma save_all_run (calls : list Question) (h : Heap) (qs : list Question) :
  stored_questions h = Arr qs →
  ∃ h', save_all calls h = (inr (), h') ∧
        stored_questions h' = Arr (fold_left (λ acc q, upsert q acc) calls qs).
Proof.
  revert h qs. induction calls as [|q calls IH]; intros h qs E; simpl.
  - by exists h.
  - unfold mbind, M_bind. rewrite (saveQuestion_run h qs q E).
    apply IH, stored_with_questions.
Qed.

Lemma save_all_app (pre post : list Question) (h : Heap) (qs : list Question) :
  stored_questions h = Arr qs →
  exec (save_all (pre ++ post)) h = exec (save_all post) (exec (save_all pre) h).
Proof.
  revert h qs. induction pre as [|q pre IH]; intros h qs E; simpl.
  - reflexivity.
  - unfold exec in *. simpl. unfold mbind, M_bind.
    rewrite !(saveQuestion_run h qs q E).
    apply (IH _ _ (stored_with_questions _ _)).
Qed.

(** *** [upsert], the array operation of [saveQuestion] *)

Lemma NoDup_fmap_eq {A B} (f : A → B) (l : list A) (a b : A) :
  NoDup (f <$> l) → a ∈ l → b ∈ l → f a = f b → a = b.
Proof.
  induction l as [|x l IH]; csimpl; intros Hnd Ha Hb Hab; [by inversion Ha|].
  apply NoDup_cons in Hnd as [Hx Hnd].
  apply elem_of_cons in Ha as [->|Ha]; apply elem_of_cons in Hb as [->|Hb].
  - done.
  - exfalso. apply Hx. rewrite Hab. by apply list_elem_of_fmap_2.
  - exfalso. apply Hx. rewrite <- Hab. by apply list_elem_of_fmap_2.
  - by apply IH.
Qed.

(** The two branches of [saveQuestion]. *)
Lemma upsert_cases (q : Question) (qs : list Question) :
  (∃ i r, qs !! i = Some r ∧ id r = id q ∧
          (∀ j y, qs !! j = Some y → (j < i)%nat → id y ≠ id q) ∧
          upsert q qs = <[i := q]> qs) ∨
  ((∀ r, r ∈ qs → id r ≠ id q) ∧ upsert q qs = q :: qs).
Proof.
  unfold upsert, findIndex.
  destruct (list_find (λ r, id r = id q) qs) as [[i r]|] eqn:E; simpl.
  - apply list_find_Some in E as (Hi & Hr & Hfirst). left. by exists i, r.
  - apply list_find_None in E. right. split; [|done].
    intros r Hr. by apply (proj1 (Forall_forall _ _) E).
Qed.

Lemma upsert_existing (q r : Question) (qs : list Question) (i : nat) :
  NoDup (id <$> qs) → qs !! i = Some r → id r = id q →
  upsert q qs = <[i := q]> qs.
Proof.
  intros Hnd Hi Hr.
  destruct (upsert_cases q qs) as [(j & y & Hj & Hy & _ & ->)|[Hnone _]].
  - assert (Heq : (id <$> qs) !! i = (id <$> qs) !! j).
    { rewrite !list_lookup_fmap, Hi, Hj. simpl. congruence. }
    assert (i = j) as ->; [|done].
    eapply NoDup_lookup; [done| |].
    + rewrite list_lookup_fmap, Hi. reflexivity.
    + rewrite <- Heq, list_lookup_fmap, Hi. reflexivity.
  - exfalso. apply (Hnone r); [|done]. by eapply list_elem_of_lookup_2.
Qed.

Lemma upsert_new (q : Question) (qs : list Question) :
  (∀ r, r ∈ qs → id r ≠ id q) → upsert q qs = q :: qs.
Proof.
  intros Hnone.
  destruct (upsert_cases q qs) as [(j & y & Hj & Hy & _ & _)|[_ ->]]; [|done].
  exfalso. apply (Hnone y); [|done]. by eapply list_elem_of_lookup_2.
Qed.

Lemma upsert_ids (q : Question) (qs : list Question) :
  id <$> upsert q qs =
  if decide (id q ∈ id <$> qs) then id <$> qs else id q :: (id <$> qs).
Proof.
  destruct (upsert_cases q qs) as [(i & r & Hi & Hr & _ & ->)|[Hnone ->]].
  - rewrite decide_True.
    + rewrite list_fmap_insert, <- Hr. apply list_insert_id.
      by rewrite list_lookup_fmap, Hi.
    + rewrite <- Hr. apply list_elem_of_fmap_2. by eapply list_elem_of_lookup_2.
  - rewrite decide_False; [done|].
    intros Hin. apply list_elem_of_fmap in Hin as (r & Hr & Hin).
    by apply (Hnone r).
Qed.

Lemma upsert_NoDup (q : Question) (qs : list Question) :
  NoDup (id <$> qs) → NoDup (id <$> upsert q qs).
Proof.
  intros Hnd. rewrite upsert_ids. destruct (decide _); [done|].
  by apply NoDup_cons.
Qed.

Lemma upsert_elem_of (q r : Question) (qs : list Question) :
  NoDup (id <$> qs) →
  r ∈ upsert q qs ↔ r = q ∨ (r ∈ qs ∧ id r ≠ id q).
Proof.
  intros Hnd.
  destruct (upsert_cases q qs) as [(i & x & Hi & Hx & _ & ->)|[Hnone ->]].
  - pose proof (lookup_lt_Some _ _ _ Hi) as Hlt.
    rewrite insert_take_drop by done.
    rewrite <- (take_drop_middle qs i x Hi) at 3.
    rewrite <- (take_drop_middle qs i x Hi) in Hnd.
    rewrite fmap_app, fmap_cons in Hnd.
    apply NoDup_app in Hnd as (_ & Hdis & Hnd).
    apply NoDup_cons in Hnd as [Hxd _].
    rewrite !elem_of_app, !elem_of_cons. split.
    + intros [Hr|[->|Hr]].
      * right. split; [by left|]. rewrite <- Hx. intros Heq.
        apply (Hdis (id r)); [by apply list_elem_of_fmap_2|].
        rewrite Heq. by left.
      * by left.
      * right. split; [by right; right|]. rewrite <- Hx. intros Heq.
        apply Hxd. rewrite <- Heq. by apply list_elem_of_fmap_2.
    + intros [->|[[Hr|[->|Hr]] Hne]]; [by right; left|by left|done|by right; right].
  - rewrite elem_of_cons. split.
    + intros [->|Hr]; [by left|]. right. split; [done|]. by apply Hnone.
    + intros [->|[Hr _]]; [by left|by right].
Qed.

(** *** Sequences of [saveQuestion] calls *)

Local Abbreviation saved := (fold_left (λ acc q, upsert q acc)).

Lemma saved_NoDup (calls qs : list Question) :
  NoDup (id <$> qs) → NoDup (id <$> saved calls qs).
Proof.
  revert qs. induction calls as [|q calls IH]; intros qs Hnd; simpl; [done|].
  by apply IH, upsert_NoDup.
Qed.

Lemma saved_ids (calls qs : list Question) (k : string) :
  k ∈ id <$> saved calls qs ↔ k ∈ id <$> qs ∨ k ∈ id <$> calls.
Proof.
  revert qs. induction calls as [|q calls IH]; intros qs; csimpl.
  - split; [by left|]. intros [?|Hnil]; [done|by inversion Hnil].
  - rewrite IH, upsert_ids, elem_of_cons.
    destruct (decide (id q ∈ id <$> qs)) as [Hin|Hin].
    + split; [tauto|]. intros [?|[->|?]]; tauto.
    + rewrite elem_of_cons. tauto.
Qed.

Lemma saved_keeps (calls qs : list Question) (q : Question) :
  NoDup (id <$> qs) → q ∈ qs → (∀ r, r ∈ calls → id r ≠ id q) →
  q ∈ saved calls qs.
Proof.
  revert qs. induction calls as [|c calls IH]; intros qs Hnd Hq Hcalls; simpl.
  - done.
  - apply IH.
    + by apply upsert_NoDup.
    + apply upsert_elem_of; [done|]. right. split; [done|].
      intros Heq. apply (Hcalls c); [by left|done].
    + intros r Hr. apply Hcalls. by right.
Qed.

Lemma saved_last (pre post qs : list Question) (q : Question) :
  NoDup (id <$> qs) → (∀ r, r ∈ post → id r ≠ id q) →
  q ∈ saved (pre ++ q :: post) qs.
Proof.
  intros Hnd Hpost. rewrite fold_left_app. simpl.
  apply saved_keeps; [|by apply upsert_elem_of; [apply saved_NoDup|left]|done].
  by apply upsert_NoDup, saved_NoDup.
Qed.

Lemma saved_frame (calls qs : list Question) (r : Question) :
  NoDup (id <$> qs) → id r ∉ id <$> calls →
  r ∈ saved calls qs ↔ r ∈ qs.
Proof.
  revert qs. induction calls as [|c calls IH]; intros qs Hnd Hr; csimpl; [done|].
  apply not_elem_of_cons in Hr as [Hne Hr].
  rewrite IH by (by try apply upsert_NoDup).
  rewrite upsert_elem_of by done. split.
  - intros [->|[? _]]; done.
  - intros ?. right. by split.
Qed.

(** *** [importQuestions]: the merge *)

Local Abbreviation entries := (fmap (M := list) (λ q : Question, (id q, q))).
Local Abbreviation newest := (λ a b : Question, createdAt b - createdAt a).

Lemma importQuestions_run (h : Heap) (current batch : list Question) :
  stored_questions h = Arr current →
  importQuestions (Arr batch) h
  = (inr (), with_questions (merged current batch) h).
Proof.
  intros E. unfold importQuestions, mbind, M_bind.
  rewrite getQuestions_run, E. apply setItem_questions.
Qed.

Lemma importQuestions_no_array_stored (h : Heap) (v : scalar)
    (batch : list Question) :
  stored_questions h = NonArr v →
  importQuestions (Arr batch) h = (inl TypeError, h).
Proof.
  intros E. unfold importQuestions, mbind, M_bind.
  by rewrite getQuestions_run, E.
Qed.

Lemma entries_keys (l : list Question) : (entries l).*1 = id <$> l.
Proof. rewrite <- list_fmap_compose. reflexivity. Qed.

Lemma entries_values (l : list Question) : Map_values (entries l) = l.
Proof.
  unfold Map_values. rewrite <- list_fmap_compose. apply list_fmap_id.
Qed.

Lemma keyed_Map_set (m : Map string Question) (q : Question) :
  keyed_by_id m → keyed_by_id (Map_set (id q) q m).
Proof.
  intros [Hnd Hall]. split; [by apply Map_set_NoDup|].
  clear Hnd. induction Hall as [|[k v] m Hkv Hall IH]; simpl.
  - by repeat constructor.
  - destruct (decide (k = id q)) as [->|Hne]; constructor; done.
Qed.

Lemma keyed_import_one (m : Map string Question) (q : Question) :
  keyed_by_id m → keyed_by_id (import_one m q).
Proof.
  intros Hm. unfold import_one.
  destruct (truthy_string (id q) && truthy_string (text q)); [|done].
  by apply keyed_Map_set.
Qed.

Lemma keyed_import_fold (batch : list Question) (m : Map string Question) :
  keyed_by_id m → keyed_by_id (fold_left import_one batch m).
Proof.
  revert m. induction batch as [|q batch IH]; intros m Hm; simpl; [done|].
  by apply IH, keyed_import_one.
Qed.

Lemma keyed_Map_new (current : list Question) :
  keyed_by_id (Map_new (entries current)).
Proof.
  unfold Map_new.
  assert (Hgen : ∀ (l : list Question) (acc : Map string Question),
    keyed_by_id acc →
    keyed_by_id (fold_left (λ m e, Map_set e.1 e.2 m) (entries l) acc)).
  { induction l as [|q l IH]; intros acc Hacc; csimpl; [done|].
    by apply IH, keyed_Map_set. }
  apply Hgen. split; constructor.
Qed.

Lemma keyed_values_ids (m : Map string Question) :
  keyed_by_id m → id <$> Map_values m = m.*1.
Proof.
  intros [_ Hall]. unfold Map_values.
  induction Hall as [|[k v] m Hkv Hall IH]; csimpl; [done|].
  simpl in Hkv. by rewrite IH, Hkv.
Qed.

Lemma keyed_entries_values (m : Map string Question) :
  keyed_by_id m → entries (Map_values m) = m.
Proof.
  intros [_ Hall]. unfold Map_values.
  induction Hall as [|[k v] m Hkv Hall IH]; csimpl; [done|].
  simpl in Hkv. by rewrite IH, Hkv.
Qed.

(** Under each key, [import_one] does what [latest] says. *)
Lemma view_import_one (m : Map string Question) (q : Question) (k : string) :
  Map_view (import_one m q) !! k = latest k (Map_view m !! k) q.
Proof.
  unfold import_one, latest, importable.
  destruct (truthy_string (id q) && truthy_string (text q)); simpl; [|done].
  rewrite Map_view_set. case_bool_decide as Hk.
  - subst k. apply lookup_insert_eq.
  - by apply lookup_insert_ne.
Qed.

Lemma view_import_fold (batch : list Question) (m : Map string Question)
    (k : string) :
  Map_view (fold_left import_one batch m) !! k
  = fold_left (latest k) batch (Map_view m !! k).
Proof.
  revert m. induction batch as [|q batch IH]; intros m; simpl; [done|].
  by rewrite IH, view_import_one.
Qed.

(** What a scan finds does not depend on what was there, unless it finds
    nothing. *)
Lemma latest_fold_absorb (batch : list Question) (k : string)
    (found : option Question) :
  fold_left (latest k) batch found =
  match fold_left (latest k) batch None with
  | Some q => Some q
  | None => found
  end.
Proof.
  revert found. induction batch as [|q batch IH]; intros found; simpl; [done|].
  rewrite (IH (latest k found q)), (IH (latest k None q)).
  destruct (fold_left (latest k) batch None); [done|].
  unfold latest. by destruct (importable q && bool_decide (id q = k)).
Qed.

Lemma latest_fold_idempotent (batch : list Question) (k : string)
    (found : option Question) :
  fold_left (latest k) batch (fold_left (latest k) batch found)
  = fold_left (latest k) batch found.
Proof.
  rewrite (latest_fold_absorb batch k (fold_left _ _ found)).
  rewrite (latest_fold_absorb batch k found).
  by destruct (fold_left (latest k) batch None).
Qed.

Lemma import_one_keys_mono (m : Map string Question) (q : Question) (k : string) :
  k ∈ m.*1 → k ∈ (import_one m q).*1.
Proof.
  intros Hk. unfold import_one.
  destruct (truthy_string (id q) && truthy_string (text q)); [|done].
  by apply Map_set_keys_mono.
Qed.

Lemma import_fold_keys_mono (batch : list Question) (m : Map string Question)
    (k : string) :
  k ∈ m.*1 → k ∈ (fold_left import_one batch m).*1.
Proof.
  revert m. induction batch as [|q batch IH]; intros m Hk; simpl; [done|].
  by apply IH, import_one_keys_mono.
Qed.

Lemma import_fold_keys_has (batch : list Question) (m : Map string Question)
    (q : Question) :
  q ∈ batch → importable q = true →
  id q ∈ (fold_left import_one batch m).*1.
Proof.
  revert m. induction batch as [|c batch IH]; intros m Hq Hok; simpl.
  - by inversion Hq.
  - apply elem_of_cons in Hq as [<-|Hq]; [|by apply IH].
    apply import_fold_keys_mono. unfold import_one.
    unfold importable in Hok. rewrite Hok. apply Map_set_elem_of_keys.
Qed.

Lemma import_fold_keys_in (batch : list Question) (m : Map string Question) :
  (∀ q, q ∈ batch → importable q = true → id q ∈ m.*1) →
  (fold_left import_one batch m).*1 = m.*1.
Proof.
  revert m. induction batch as [|c batch IH]; intros m Hin; simpl; [done|].
  assert (Hc : (import_one m c).*1 = m.*1).
  { unfold import_one. destruct (truthy_string (id c) && truthy_string (text c)) eqn:E;
      [|done].
    apply Map_set_keys_in, Hin; [by left|done]. }
  rewrite IH; [done|].
  intros q Hq Hok. rewrite Hc. apply Hin; [by right|done].
Qed.

Lemma import_fold_skip (batch : list Question) (m : Map string Question) :
  Forall (λ q, importable q = false) batch →
  fold_left import_one batch m = m.
Proof.
  induction 1 as [|q batch Hq Hall IH]; simpl; [done|].
  unfold import_one at 2. unfold importable in Hq. by rewrite Hq.
Qed.

(** The collection that [importQuestions] writes has one record per [id]
    and is in the order it sorts into. *)
Lemma merged_NoDup (current batch : list Question) :
  NoDup (id <$> merged current batch).
Proof.
  unfold merged.
  rewrite (sort_Permutation newest).
  rewrite keyed_values_ids by apply keyed_import_fold, keyed_Map_new.
  apply keyed_import_fold, keyed_Map_new.
Qed.

Lemma merged_newest_first (current batch : list Question) :
  newest_first (merged current batch).
Proof. apply (sort_ordered createdAt). Qed.

(** Merging a batch into the result of merging it changes nothing. *)
Lemma merged_idempotent (current batch : list Question) :
  merged (merged current batch) batch = merged current batch.
Proof.
  set (m1 := fold_left import_one batch (Map_new (entries current))).
  assert (Hm1 : keyed_by_id m1) by apply keyed_import_fold, keyed_Map_new.
  assert (Hperm : merged current batch ≡ₚ Map_values m1)
    by apply sort_Permutation.
  assert (Hnd : NoDup (entries (merged current batch)).*1).
  { rewrite entries_keys. apply merged_NoDup. }
  assert (Hfold : fold_left import_one batch (entries (merged current batch))
                  = entries (merged current batch)).
  { assert (Heperm : entries (merged current batch) ≡ₚ m1).
    { rewrite Hperm. by rewrite keyed_entries_values. }
    apply Map_eq.
    - rewrite import_fold_keys_in; [done|].
      intros q Hq Hok. rewrite Heperm. by apply import_fold_keys_has.
    - apply import_fold_keys_in.
      intros q Hq Hok. rewrite Heperm. by apply import_fold_keys_has.
    - apply map_eq. intros k. rewrite view_import_fold.
      assert (Hview : Map_view (entries (merged current batch)) = Map_view m1).
      { unfold Map_view. by apply list_to_map_proper. }
      rewrite Hview. unfold m1. rewrite view_import_fold.
      apply latest_fold_idempotent. }
  unfold merged at 1.
  rewrite Map_new_NoDup by done.
  rewrite Hfold, entries_values.
  apply (sort_ordered_id createdAt), merged_newest_first.
Qed.

Lemma importable_spec (q : Question) :
  importable q = true ↔ id q ≠ "" ∧ text q ≠ "".
Proof.
  unfold importable, truthy_string.
  destruct (id q), (text q); simpl;
    (split; [intros ?; split; congruence | intros [? ?]; congruence]).
Qed.

Lemma not_importable_spec (q : Question) :
  importable q = false ↔ id q = "" ∨ text q = "".
Proof.
  unfold importable, truthy_string.
  destruct (id q), (text q); simpl;
    (split; [intros ?; first [congruence | by left | by right]
            | intros [?|?]; congruence]).
Qed.

Lemma latest_fold_none (batch : list Question) (k : string)
    (found : option Question) :
  (∀ r, r ∈ batch → importable r = true → id r ≠ k) →
  fold_left (latest k) batch found = found.
Proof.
  revert found. induction batch as [|c batch IH]; intros found Hno; simpl; [done|].
  rewrite IH by (intros r Hr; apply Hno; by right).
  unfold latest. destruct (importable c) eqn:Hc; simpl; [|done].
  rewrite bool_decide_eq_false_2; [done|]. apply Hno; [by left|done].
Qed.

(** The record that the merge keeps under the [id] of the last importable
    record of the batch with that [id] is that record. *)
Lemma merged_last (current pre post : list Question) (q : Question) :
  importable q = true →
  (∀ r, r ∈ post → importable r = true → id r ≠ id q) →
  q ∈ merged current (pre ++ q :: post).
Proof.
  intros Hq Hpost. unfold merged. rewrite (sort_Permutation newest).
  set (m1 := fold_left import_one (pre ++ q :: post) (Map_new (entries current))).
  assert (Hm1 : keyed_by_id m1) by apply keyed_import_fold, keyed_Map_new.
  assert (Hview : Map_view m1 !! id q = Some q).
  { unfold m1. rewrite view_import_fold, fold_left_app. simpl.
    rewrite latest_fold_none by done.
    unfold latest. rewrite Hq. simpl. by rewrite bool_decide_eq_true_2. }
  apply elem_of_list_to_map in Hview; [|by destruct Hm1].
  unfold Map_values. apply list_elem_of_fmap. by exists (id q, q).
Qed.

(** *** The category list and the cascade *)

Lemma getCategories_run (h : Heap) :
  getCategories h =
  match categories_item h with
  | Some (Doc v) => (inr (OwnArray, v), h)
  | Some Junk => (inl SyntaxError, h)
  | Some Empty | None => (inr (DefaultsArray, Arr (default_categories h)), h)
  end.
Proof.
  unfold getCategories, getItem, mbind, M_bind.
  by destruct (categories_item h) as [[| |v]|].
Qed.

Lemma recategorize_spec (from to : string) (qs : list Question) (updated : bool) :
  recategorize from to qs updated
  = (retag from to <$> qs,
     updated || existsb (λ q, bool_decide (category q = from)) qs).
Proof.
  revert updated. induction qs as [|q qs IH]; intros updated; csimpl.
  - by rewrite orb_false_r.
  - unfold retag at 1. destruct (decide (category q = from)) as [Hq|Hq].
    + rewrite IH, bool_decide_eq_true_2 by done. simpl. by rewrite orb_true_r.
    + rewrite IH, bool_decide_eq_false_2 by done. reflexivity.
Qed.

Lemma retag_untouched (from to : string) (qs : list Question) :
  existsb (λ q, bool_decide (category q = from)) qs = false →
  retag from to <$> qs = qs.
Proof.
  induction qs as [|q qs IH]; csimpl; [done|].
  intros [Hq Hqs]%orb_false_elim. rewrite IH by done.
  unfold retag. apply bool_decide_eq_false_1 in Hq. by rewrite decide_False.
Qed.

(** The cascade rewrites the collection and touches nothing else. *)
Lemma cascade_run (from to : string) (h : Heap) (qs : list Question) :
  stored_questions h = Arr qs →
  ∃ h', cascade from to h = (inr (), h') ∧
        stored_questions h' = Arr (retag from to <$> qs) ∧
        categories_item h' = categories_item h ∧
        default_categories h' = default_categories h.
Proof.
  intros E. unfold cascade, mbind, M_bind.
  rewrite getQuestions_run, E, recategorize_spec. simpl.
  destruct (existsb _ qs) eqn:Hany.
  - eexists. split; [reflexivity|]. done.
  - exists h. rewrite retag_untouched by done. done.
Qed.

Lemma cascade_frame (from to : string) (h : Heap) :
  categories_item (exec (cascade from to) h) = categories_item h ∧
  default_categories (exec (cascade from to) h) = default_categories h.
Proof.
  destruct (stored_questions h) as [qs|v] eqn:E.
  - destruct (cascade_run from to h qs E) as (h' & Hrun & _ & ? & ?).
    unfold exec. by rewrite Hrun.
  - unfold exec, cascade, mbind, M_bind. by rewrite getQuestions_run, E.
Qed.

Lemma indexOf_first (cats : list string) (x : string) :
  x ∈ cats →
  ∃ index, indexOf cats x = Some index ∧ cats !! index = Some x ∧
           ∀ j, (j < index)%nat → cats !! j ≠ Some x.
Proof.
  intros Hx. unfold indexOf, findIndex.
  destruct (list_find (λ y, y = x) cats) as [[i y]|] eqn:E; simpl.
  - apply list_find_Some in E as (Hi & -> & Hfirst).
    exists i. split; [done|]. split; [done|].
    intros j Hj Hc. by apply (Hfirst j x).
  - apply list_find_None in E. exfalso.
    by apply (proj1 (Forall_forall _ _) E x).
Qed.

Lemma removeCategory_categories (name : string) (h : Heap) (r : array_ref)
    (cats : list string) :
  fst (getCategories h) = inr (r, Arr cats) →
  categories_item (exec (removeCategory name) h)
  = Some (Doc (Arr (List.filter (λ c, bool_decide (c ≠ name)) cats))).
Proof.
  intros Hcats. unfold exec, removeCategory, mbind, M_bind.
  destruct (getCategories h) as [[e|[r' stored]] h1] eqn:E; simpl in Hcats; [done|].
  injection Hcats as -> ->.
  assert (h1 = h) as ->.
  { rewrite getCategories_run in E.
    destruct (categories_item h) as [[| |v]|]; congruence. }
  unfold saveCategories. simpl.
  match goal with |- context [cascade ?a ?b ?h0] =>
    pose proof (cascade_frame a b h0) as [Hc _]; unfold exec in Hc;
    destruct (cascade a b h0) as [[e|[]] h2] end; simpl in *; by rewrite Hc.
Qed.

(** *** The properties of the specification *)

(** C1: a sequence of [saveQuestion] calls on a store without duplicate ids
    never throws and leaves a collection with one record per id, whose ids
    are those of the store and of the calls; the record under an id that was
    saved is the argument of the last call with that id, and records whose
    id was not saved stay.  Each call replaces the record with its id where
    it stands, or puts a record with a new id in front. *)
Theorem saveQuestion_sequence (h : Heap) (qs0 calls : list Question) :
  fst (getQuestions h) = inr (Arr qs0) →
  NoDup (id <$> qs0) →
  ∃ qs,
    fst (save_all calls h) = inr () ∧
    fst (getQuestions (exec (save_all calls) h)) = inr (Arr qs) ∧
    NoDup (id <$> qs) ∧
    (∀ k, k ∈ id <$> qs ↔ k ∈ id <$> qs0 ∨ k ∈ id <$> calls) ∧
    (∀ pre q post,
       calls = pre ++ q :: post → (∀ r, r ∈ post → id r ≠ id q) →
       q ∈ qs ∧ ∀ r, r ∈ qs → id r = id q → r = q) ∧
    (∀ r, id r ∉ id <$> calls → r ∈ qs ↔ r ∈ qs0) ∧
    (∀ pre q post,
       calls = pre ++ q :: post →
       ∃ before after,
         fst (getQuestions (exec (save_all pre) h)) = inr (Arr before) ∧
         fst (getQuestions (exec (save_all (pre ++ [q])) h)) = inr (Arr after) ∧
         (∀ i r, before !! i = Some r → id r = id q →
                 after = <[i := q]> before) ∧
         ((∀ r, r ∈ before → id r ≠ id q) → after = q :: before)).
Proof.
  rewrite getQuestions_run. simpl. intros [= E] Hnd.
  destruct (save_all_run calls h qs0 E) as (h' & Hrun & Hh').
  exists (fold_left (λ acc q, upsert q acc) calls qs0).
  unfold exec. rewrite Hrun. simpl. rewrite getQuestions_run, Hh'. simpl.
  split; [done|]. split; [done|].
  split; [by apply saved_NoDup|].
  split; [intros k; apply saved_ids|].
  split; [|split].
  - intros pre q post -> Hpost.
    assert (Hq : q ∈ fold_left (λ acc q, upsert q acc) (pre ++ q :: post) qs0)
      by by apply saved_last.
    split; [done|]. intros r Hr Hid.
    by apply (NoDup_fmap_eq id _ r q (saved_NoDup (pre ++ q :: post) qs0 Hnd)).
  - intros r Hr. by apply saved_frame.
  - intros pre q post _.
    destruct (save_all_run pre h qs0 E) as (h1 & Hrun1 & Hh1).
    exists (fold_left (λ acc q, upsert q acc) pre qs0).
    exists (upsert q (fold_left (λ acc q, upsert q acc) pre qs0)).
    fold (exec (save_all (pre ++ [q])) h).
    rewrite (save_all_app pre [q] h qs0 E).
    unfold exec. rewrite Hrun1. simpl. unfold mbind, M_bind.
    rewrite (saveQuestion_run h1 _ q Hh1). simpl.
    rewrite !getQuestions_run, Hh1. simpl.
    split; [done|]. split; [done|]. split.
    + intros i r Hi Hr. eapply upsert_existing; [by apply saved_NoDup|done..].
    + apply upsert_new.
Qed.

(** The scenario of the specification: saving ["New?"] and then ["Edited?"]
    under the id ["n"] on an empty store. *)
Lemma saveQuestion_sequence_witness :
  ∃ qs,
    fst (getQuestions
           (exec (save_all [Scenario.record "n" "New?" "Other" 1;
                            Scenario.record "n" "Edited?" "Other" 1])
                 Scenario.fresh)) = inr (Arr qs) ∧
    qs = [Scenario.record "n" "Edited?" "Other" 1].
Proof.
  destruct (saveQuestion_sequence Scenario.fresh []
              [Scenario.record "n" "New?" "Other" 1;
               Scenario.record "n" "Edited?" "Other" 1])
    as (qs & _ & Hqs & _); [reflexivity | constructor |].
  exists qs. split; [exact Hqs|].
  vm_compute in Hqs. by injection Hqs as <-.
Defined.

(** C2: importing the same batch a second time leaves the store as the
    first import left it, whatever the store held and whatever the payload
    is. *)
Theorem importQuestions_idempotent (newQuestions : JSON Question) (h : Heap) :
  exec (importQuestions newQuestions)
    (exec (importQuestions newQuestions) h)
  = exec (importQuestions newQuestions) h.
Proof.
  destruct newQuestions as [batch|v]; [|reflexivity].
  destruct (stored_questions h) as [current|v] eqn:E.
  - unfold exec. rewrite (importQuestions_run h current batch E). cbn [snd].
    rewrite (importQuestions_run _ (merged current batch) batch)
      by apply stored_with_questions.
    cbn [snd]. by rewrite merged_idempotent, with_questions_twice.
  - unfold exec. rewrite (importQuestions_no_array_stored h v batch E).
    cbn [snd]. by rewrite (importQuestions_no_array_stored h v batch E).
Qed.

(** C3: a payload that is not an array makes [importQuestions] throw
    [Error('Invalid data format')] with the store as it was, and an array
    never makes it throw that error. *)
Theorem importQuestions_invalid_format :
  (∀ (v : scalar) (h : Heap),
     importQuestions (NonArr v) h = (inl (Error "Invalid data format"), h)) ∧
  (∀ (batch : list Question) (h : Heap),
     fst (importQuestions (Arr batch) h) ≠ inl (Error "Invalid data format")).
Proof.
  split; [reflexivity|]. intros batch h.
  destruct (stored_questions h) as [current|v] eqn:E.
  - by rewrite (importQuestions_run h current batch E).
  - by rewrite (importQuestions_no_array_stored h v batch E).
Qed.

(** C4, as stated, fails: the store holds a record created at 100 in front
    of one created at 200, and importing the empty array swaps them. *)
Lemma importQuestions_empty_reorders :
  let a := Scenario.record "a" "first" "NLP" 100 in
  let b := Scenario.record "b" "second" "Other" 200 in
  fst (getQuestions (Scenario.holding [a; b])) = inr (Arr [a; b]) ∧
  fst (getQuestions (exec (importQuestions (Arr [])) (Scenario.holding [a; b])))
  = inr (Arr [b; a]) ∧
  [b; a] ≠ [a; b].
Proof. repeat split. discriminate. Qed.

(** C4, amended: on a store without duplicate ids, importing a batch in
    which every record lacks a non-empty [id] or a non-empty [text] (the
    empty batch among them) keeps the records and writes them back sorted by
    [createdAt] descending, records of equal [createdAt] in their old order;
    the collection is unchanged exactly when it was in that order. *)
Theorem importQuestions_nothing_importable (h : Heap)
    (current batch : list Question) :
  fst (getQuestions h) = inr (Arr current) →
  NoDup (id <$> current) →
  Forall (λ q, id q = "" ∨ text q = "") batch →
  ∃ qs,
    fst (importQuestions (Arr batch) h) = inr () ∧
    fst (getQuestions (exec (importQuestions (Arr batch)) h)) = inr (Arr qs) ∧
    qs = sort (λ a b, createdAt b - createdAt a) current ∧
    qs ≡ₚ current ∧
    newest_first qs ∧
    (qs = current ↔ newest_first current).
Proof.
  rewrite getQuestions_run. cbn [fst]. intros [= E] Hnd Hbatch.
  exists (merged current batch).
  unfold exec. rewrite (importQuestions_run h current batch E). cbn [fst snd].
  rewrite getQuestions_run, stored_with_questions. cbn [fst].
  assert (Hm : merged current batch = sort newest current).
  { unfold merged. rewrite import_fold_skip.
    - rewrite Map_new_NoDup by by rewrite entries_keys.
      by rewrite entries_values.
    - eapply Forall_impl; [exact Hbatch|]. intros q. apply not_importable_spec. }
  split; [done|]. split; [done|]. split; [done|].
  split; [rewrite Hm; apply sort_Permutation|].
  split; [apply merged_newest_first|].
  split.
  - intros <-. apply merged_newest_first.
  - intros Hsorted. rewrite Hm. by apply (sort_ordered_id createdAt).
Qed.

Lemma importQuestions_nothing_importable_witness :
  let a := Scenario.record "a" "first" "NLP" 100 in
  let b := Scenario.record "b" "second" "Other" 200 in
  let skipped := Scenario.record "" "no id" "Other" 300 in
  ∃ qs,
    fst (getQuestions
           (exec (importQuestions (Arr [skipped])) (Scenario.holding [b; a])))
    = inr (Arr qs) ∧
    qs = [b; a].
Proof.
  intros a b skipped.
  destruct (importQuestions_nothing_importable (Scenario.holding [b; a])
              [b; a] [skipped]) as (qs & _ & Hqs & -> & _).
  - reflexivity.
  - compute_done.
  - repeat constructor.
  - eexists. split; [exact Hqs|]. reflexivity.
Defined.

(** C10: when the batch holds several importable records with one id, the
    collection that [importQuestions] leaves holds the last of them, and no
    other record with that id: not the one the store had, nor an earlier
    one of the batch. *)
Theorem importQuestions_last_duplicate_wins (h : Heap)
    (current pre post : list Question) (q : Question) :
  fst (getQuestions h) = inr (Arr current) →
  id q ≠ "" → text q ≠ "" →
  (∀ r, r ∈ post → id r ≠ "" → text r ≠ "" → id r ≠ id q) →
  ∃ qs,
    fst (importQuestions (Arr (pre ++ q :: post)) h) = inr () ∧
    fst (getQuestions (exec (importQuestions (Arr (pre ++ q :: post))) h))
    = inr (Arr qs) ∧
    q ∈ qs ∧
    ∀ r, r ∈ qs → id r = id q → r = q.
Proof.
  rewrite getQuestions_run. cbn [fst]. intros [= E] Hid Htext Hpost.
  exists (merged current (pre ++ q :: post)).
  unfold exec. rewrite (importQuestions_run h current _ E). cbn [fst snd].
  rewrite getQuestions_run, stored_with_questions. cbn [fst].
  split; [done|]. split; [done|].
  assert (Hq : q ∈ merged current (pre ++ q :: post)).
  { apply merged_last; [by apply importable_spec|].
    intros r Hr [? ?]%importable_spec. by apply Hpost. }
  split; [done|]. intros r Hr Heq.
  by apply (NoDup_fmap_eq id _ r q (merged_NoDup current (pre ++ q :: post))).
Qed.

Lemma importQuestions_last_duplicate_wins_witness :
  let old := Scenario.record "x" "stored" "NLP" 100 in
  let earlier := Scenario.record "x" "first of the batch" "NLP" 200 in
  let last := Scenario.record "x" "last of the batch" "Other" 300 in
  ∃ qs,
    fst (getQuestions
           (exec (importQuestions (Arr [earlier; last])) (Scenario.holding [old])))
    = inr (Arr qs) ∧
    last ∈ qs ∧ (earlier ∉ qs) ∧ (old ∉ qs).
Proof.
  intros old earlier last.
  destruct (importQuestions_last_duplicate_wins (Scenario.holding [old])
              [old] [earlier] [] last) as (qs & _ & Hqs & Hin & Honly).
  - reflexivity.
  - discriminate.
  - discriminate.
  - intros r Hr. inversion Hr.
  - exists qs. split; [exact Hqs|]. split; [exact Hin|].
    split; intros Hr; apply Honly in Hr; try reflexivity; discriminate Hr.
Defined.

Lemma getCategories_array (h : Heap) (r : array_ref) (cats : list string) :
  fst (getCategories h) = inr (r, Arr cats) →
  getCategories h = (inr (r, Arr cats), h).
Proof.
  rewrite getCategories_run.
  destruct (categories_item h) as [[| |v]|]; simpl; congruence.
Qed.

Lemma renameCategory_run (h : Heap) (r : array_ref) (cats : list string)
    (qs : list Question) (oldName newName : string) (index : nat) :
  fst (getCategories h) = inr (r, Arr cats) →
  indexOf cats oldName = Some index →
  stored_questions h = Arr qs →
  ∃ h', renameCategory oldName newName h = (inr (), h') ∧
        categories_item h' = Some (Doc (Arr (<[index := newName]> cats))) ∧
        stored_questions h' = Arr (retag oldName newName <$> qs).
Proof.
  intros Hcats Hidx Hqs. unfold renameCategory, mbind, M_bind.
  rewrite (getCategories_array h r cats Hcats), Hidx.
  unfold assign, saveCategories, setItem, JSON_stringify. cbn beta iota zeta.
  match goal with |- context [cascade _ _ ?h0] =>
    destruct (cascade_run oldName newName h0 qs) as (h' & Hrun & Hq' & Hc' & _)
  end.
  { by destruct r. }
  exists h'. by rewrite Hrun.
Qed.

Lemma renameCategory_categories (h : Heap) (r : array_ref) (cats : list string)
    (oldName newName : string) (index : nat) :
  fst (getCategories h) = inr (r, Arr cats) →
  indexOf cats oldName = Some index →
  categories_item (exec (renameCategory oldName newName) h)
  = Some (Doc (Arr (<[index := newName]> cats))).
Proof.
  intros Hcats Hidx. unfold exec, renameCategory, mbind, M_bind.
  rewrite (getCategories_array h r cats Hcats), Hidx.
  unfold assign, saveCategories, setItem, JSON_stringify. cbn beta iota zeta.
  match goal with |- context [cascade ?a ?b ?h0] =>
    pose proof (cascade_frame a b h0) as [Hc _]; unfold exec in Hc;
    destruct (cascade a b h0) as [[e|[]] h2]
  end; simpl in *; by rewrite Hc.
Qed.

(** C8: when [oldName] is in the category list, [renameCategory] leaves the
    list with [newName] where [oldName] first stood and every other label as
    it was; and when the store holds a collection it returns, every record
    that had the category [oldName] is the same record with the category
    [newName], and every other record is unchanged, each in its place. *)
Theorem renameCategory_cascades (h : Heap) (r : array_ref)
    (cats : list string) (oldName newName : string) :
  fst (getCategories h) = inr (r, Arr cats) →
  oldName ∈ cats →
  ∃ index cats',
    cats !! index = Some oldName ∧
    (∀ j, (j < index)%nat → cats !! j ≠ Some oldName) ∧
    fst (getCategories (exec (renameCategory oldName newName) h))
    = inr (OwnArray, Arr cats') ∧
    length cats' = length cats ∧
    cats' !! index = Some newName ∧
    (∀ j, j ≠ index → cats' !! j = cats !! j) ∧
    ∀ qs, fst (getQuestions h) = inr (Arr qs) →
      fst (renameCategory oldName newName h) = inr () ∧
      ∃ qs',
        fst (getQuestions (exec (renameCategory oldName newName) h))
        = inr (Arr qs') ∧
        length qs' = length qs ∧
        (∀ j q, qs !! j = Some q →
           (category q = oldName → qs' !! j = Some (set_category newName q)) ∧
           (category q ≠ oldName → qs' !! j = Some q)).
Proof.
  intros Hcats Hold.
  destruct (indexOf_first cats oldName Hold) as (index & Hidx & Hat & Hfirst).
  exists index, (<[index := newName]> cats).
  split; [done|]. split; [done|]. split.
  { rewrite getCategories_run.
    by rewrite (renameCategory_categories h r cats oldName newName index). }
  split; [apply length_insert|].
  split; [apply list_lookup_insert_eq; by eapply lookup_lt_Some|].
  split; [intros j Hj; by apply list_lookup_insert_ne|].
  intros qs. rewrite getQuestions_run. cbn [fst]. intros [= Hqs].
  destruct (renameCategory_run h r cats qs oldName newName index Hcats Hidx Hqs)
    as (h' & Hrun & Hc' & Hq').
  unfold exec. rewrite Hrun. cbn [fst snd]. split; [done|].
  exists (retag oldName newName <$> qs).
  rewrite getQuestions_run, Hq'. cbn [fst].
  split; [done|]. split; [apply length_fmap|].
  intros j q Hj. rewrite list_lookup_fmap, Hj. unfold retag. simpl.
  split; intros Hq; [by rewrite decide_True|by rewrite decide_False].
Qed.

(** The scenario of the specification: renaming ["Algorithm"] to ["Algos"]
    on the default category list. *)
Lemma renameCategory_cascades_witness :
  let a := Scenario.record "a" "sort a list" "Algorithm" 100 in
  let b := Scenario.record "b" "tell me about you" "Behavioral" 200 in
  let h := Scenario.holding [a; b] in
  ∃ index cats',
    DEFAULT_CATEGORIES !! index = Some "Algorithm" ∧
    (∀ j, (j < index)%nat → DEFAULT_CATEGORIES !! j ≠ Some "Algorithm") ∧
    fst (getCategories (exec (renameCategory "Algorithm" "Algos") h))
    = inr (OwnArray, Arr cats') ∧
    length cats' = length DEFAULT_CATEGORIES ∧
    cats' !! index = Some "Algos" ∧
    (∀ j, j ≠ index → cats' !! j = DEFAULT_CATEGORIES !! j) ∧
    ∀ qs, fst (getQuestions h) = inr (Arr qs) →
      fst (renameCategory "Algorithm" "Algos" h) = inr () ∧
      ∃ qs',
        fst (getQuestions (exec (renameCategory "Algorithm" "Algos") h))
        = inr (Arr qs') ∧
        length qs' = length qs ∧
        (∀ j q, qs !! j = Some q →
           (category q = "Algorithm" → qs' !! j = Some (set_category "Algos" q)) ∧
           (category q ≠ "Algorithm" → qs' !! j = Some q)).
Proof.
  intros a b h.
  apply (renameCategory_cascades h DefaultsArray DEFAULT_CATEGORIES
           "Algorithm" "Algos").
  - reflexivity.
  - compute_done.
Defined.

(** C7, as stated, fails: on a fresh store the category list is the default
    one, which has ["Other"]; [removeCategory("Other")] is not rejected, and
    the list it leaves has lost the label. *)
Lemma removeCategory_Other_not_rejected :
  let h := Scenario.fresh in
  let remaining :=
    [ "Algorithm"; "Reinforcement Learning"; "SFT"; "Machine Learning"; "NLP";
      "Multimodal"; "Software Engineering"; "Behavioral" ] in
  fst (getCategories h) = inr (DefaultsArray, Arr DEFAULT_CATEGORIES) ∧
  "Other" ∈ DEFAULT_CATEGORIES ∧
  fst (removeCategory "Other" h) = inr () ∧
  fst (getCategories (exec (removeCategory "Other") h))
  = inr (OwnArray, Arr remaining) ∧
  "Other" ∉ remaining.
Proof. repeat split; compute_done. Qed.

End CategoryStorageProofs.

(** ** The UI: the guarded category removal and the filtered view *)

Module AppProofs.
Import JS App.

(** *** Substrings *)

Lemma append_cons (a : ascii) (s t : string) :
  String a s +:+ t = String a (s +:+ t).
Proof. reflexivity. Qed.

Lemma append_empty (t : string) : "" +:+ t = t.
Proof. reflexivity. Qed.

Lemma startsWith_spec (s prefix : string) :
  startsWith s prefix = true ↔ ∃ post, s = prefix +:+ post.
Proof.
  revert s. induction prefix as [|a prefix IH]; intros s; simpl.
  - split; [intros _; by exists s|done].
  - destruct s as [|b s].
    + split; [done|]. intros [post Hpost]. by rewrite append_cons in Hpost.
    + destruct (decide (a = b)) as [->|Hne].
      * rewrite IH. split; intros [post Hpost]; exists post;
          rewrite append_cons in *; congruence.
      * split; [done|]. intros [post Hpost].
        rewrite append_cons in Hpost. congruence.
Qed.

Lemma includes_spec (s sub : string) :
  includes s sub = true ↔ is_substring sub s.
Proof.
  unfold is_substring. induction s as [|a s IH]; simpl.
  - rewrite orb_false_r, startsWith_spec. split.
    + intros [post Hpost]. by exists "", post.
    + intros ([|b pre] & post & Hpost); [by exists post|].
      by rewrite append_cons in Hpost.
  - rewrite orb_true_iff, startsWith_spec, IH. split.
    + intros [[post Hpost]|(pre & post & Hpost)].
      * by exists "", post.
      * exists (String a pre), post. by rewrite append_cons, Hpost.
    + intros ([|b pre] & post & Hpost).
      * left. by exists post.
      * right. exists pre, post. rewrite append_cons in Hpost. congruence.
Qed.

Lemma is_substring_empty (s : string) : is_substring "" s.
Proof. by exists "", s. Qed.

Lemma is_substring_of_empty (sub : string) : is_substring sub "" → sub = "".
Proof.
  intros ([|a pre] & post & Hpost); [|by rewrite append_cons in Hpost].
  rewrite append_empty in Hpost. destruct sub; [done|].
  by rewrite append_cons in Hpost.
Qed.

(** *** The callback of the filter against the three predicates *)

Lemma matchCategory_spec (selectedCategory : string) (q : Question) :
  bool_decide (selectedCategory = "All") ||
  bool_decide (category q = selectedCategory) = true
  ↔ CategoryPredicate selectedCategory q.
Proof.
  unfold CategoryPredicate.
  rewrite orb_true_iff, !bool_decide_eq_true. done.
Qed.

Lemma ascii_only_empty : ascii_only "".
Proof. constructor. Qed.

(** An empty [companyTag] is skipped by the callback; it adds nothing to the
    text predicate either, the lower-cased empty text being empty. *)
Lemma matchSearch_spec `{R : Runtime} (HR : Faithful R) (searchQuery : string)
    (q : Question) :
  includes (toLowerCase (text q)) (toLowerCase searchQuery) ||
  match companyTag q with
  | Some tag =>
      truthy_string tag && includes (toLowerCase tag) (toLowerCase searchQuery)
  | None => false
  end = true
  ↔ TextPredicate searchQuery q.
Proof.
  unfold TextPredicate. rewrite orb_true_iff, includes_spec.
  destruct (companyTag q) as [tag|].
  - rewrite andb_true_iff, includes_spec. split.
    + intros [Htext|[_ Htag]]; [by left|]. right. by exists tag.
    + intros [Htext|(tag' & [= <-] & Htag)]; [by left|].
      destruct tag as [|c tag]; cbn [truthy_string].
      * left. rewrite (toLowerCase_ascii R HR "" ascii_only_empty) in Htag.
        apply is_substring_of_empty in Htag. rewrite Htag.
        apply is_substring_empty.
      * right. done.
  - split.
    + intros [Htext|?]; [by left|done].
    + intros [Htext|(tag' & ? & _)]; [by left|done].
Qed.

Lemma matchDate_spec (now : Z) (dateFilter : string) (q : Question) :
  (if bool_decide (dateFilter ≠ "all") then
     let diff := now - updatedAt q in
     if bool_decide (dateFilter = "today") then bool_decide (diff < oneDay)
     else if bool_decide (dateFilter = "week") then bool_decide (diff < oneDay * 7)
     else if bool_decide (dateFilter = "month") then bool_decide (diff < oneDay * 30)
     else if bool_decide (dateFilter = "year") then bool_decide (diff < oneDay * 365)
     else true
   else true) = true
  ↔ DatePredicate now dateFilter q.
Proof.
  unfold DatePredicate, bucket_days, oneDay, dayMillis. cbn zeta.
  case_bool_decide as Hall.
  - repeat (case_bool_decide; [rewrite decide_True by done;
                               rewrite bool_decide_eq_true; lia|];
            rewrite decide_False by done).
    done.
  - subst dateFilter. done.
Qed.

Lemma matches_spec `{R : Runtime} (HR : Faithful R) (now : Z)
    (selectedCategory dateFilter searchQuery : string) (q : Question) :
  matches now selectedCategory dateFilter searchQuery q = true ↔
  CategoryPredicate selectedCategory q ∧
  TextPredicate searchQuery q ∧
  DatePredicate now dateFilter q.
Proof.
  unfold matches. cbn zeta.
  rewrite !andb_true_iff, matchCategory_spec, (matchSearch_spec HR),
    matchDate_spec.
  tauto.
Qed.

(** *** Lower-casing against equality up to case, on texts of ASCII *)

Lemma lower_ascii_same_letter (a b : ascii) :
  lower_ascii a = lower_ascii b ↔ same_letter a b.
Proof.
  unfold same_letter.
  pose proof (N_ascii_bounded a) as Ha. pose proof (N_ascii_bounded b) as Hb.
  split.
  - intros H. apply (f_equal N_of_ascii) in H.
    rewrite !JSProofs.lower_ascii_code in H.
    destruct (N.leb_spec 65 (N_of_ascii a)), (N.leb_spec (N_of_ascii a) 90),
      (N.leb_spec 65 (N_of_ascii b)), (N.leb_spec (N_of_ascii b) 90);
      cbn [andb] in H;
      first [ left; apply JSProofs.N_of_ascii_inj; lia
            | right; exists (N_of_ascii a - 65)%N; split; [lia|]; left; lia
            | right; exists (N_of_ascii b - 65)%N; split; [lia|]; right; lia ].
  - intros [->|(i & Hi & [[Ea Eb]|[Ea Eb]])]; [done|..];
      apply JSProofs.N_of_ascii_inj; rewrite !JSProofs.lower_ascii_code, Ea, Eb;
      destruct (N.leb_spec 65 (65 + i)), (N.leb_spec (65 + i) 90),
        (N.leb_spec 65 (97 + i)), (N.leb_spec (97 + i) 90);
      cbn [andb]; lia.
Qed.

Lemma ascii_toLowerCase_equal (s t : string) :
  ascii_toLowerCase s = ascii_toLowerCase t ↔ equal_ignoring_case s t.
Proof.
  unfold equal_ignoring_case. revert t.
  induction s as [|a s IH]; intros [|b t]; cbn.
  - split; [constructor|done].
  - split; [done|]. intros H. inversion H.
  - split; [done|]. intros H. inversion H.
  - split.
    + intros [= Hab Hst]. constructor; [by apply lower_ascii_same_letter|].
      by apply IH.
    + intros H. inversion H as [|? ? ? ? Hab Hst]; subst.
      apply lower_ascii_same_letter in Hab. apply IH in Hst. congruence.
Qed.



(** *** Selecting a subsequence *)


(** [selects P l] has one result: what is kept is settled record by record. *)
Lemma selects_functional {A} (P : A → Prop) (l r1 r2 : list A) :
  selects P l r1 → selects P l r2 → r1 = r2.
Proof.
  intros H1. revert r2.
  induction H1 as [|x l r Hx H1 IH|x l r Hx H1 IH]; intros r2 H2;
    inversion H2; subst; try done.
  - f_equal. by apply IH.
  - by apply IH.
Qed.


Lemma selects_elem_of {A} (P : A → Prop) (l r : list A) (x : A) :
  selects P l r → x ∈ r ↔ x ∈ l ∧ P x.
Proof.
  induction 1 as [|y l r Hy Hsel IH|y l r Hy Hsel IH].
  - split; [intros Hx|intros [Hx _]]; by inversion Hx.
  - rewrite !elem_of_cons, IH. split.
    + intros [->|[? ?]]; [by split; [left|]|by split; [right|]].
    + intros [[->|?] ?]; [by left|by right].
  - rewrite elem_of_cons, IH. split.
    + intros [? ?]. by split; [right|].
    + intros [[->|?] ?]; [done|by split].
Qed.



(** *** Removing a category through the handler *)

Lemma exec_refreshAll (h : CategoryStorage.Heap) : exec refreshAll h = h.
Proof.
  unfold exec, refreshAll, mbind, M_bind.
  rewrite CategoryStorageProofs.getQuestions_run.
  rewrite CategoryStorageProofs.getCategories_run.
  by destruct (CategoryStorage.categories_item h) as [[| |v]|].
Qed.

Lemma exec_then_refreshAll (m : M CategoryStorage.Heap ())
    (h : CategoryStorage.Heap) :
  exec (m;; refreshAll) h = exec m h.
Proof.
  unfold exec, mbind, M_bind. destruct (m h) as [[e|[]] h']; [done|].
  apply exec_refreshAll.
Qed.

(** C7, amended: the guard is in the handler.  [handleRemoveCat("Other")]
    returns at once and leaves the store, category list and records, as it
    was; and whatever label the handler is asked to remove, a category list
    that has ["Other"] still has it afterwards. *)
Theorem handleRemoveCat_guards_Other (confirmed : bool)
    (h : CategoryStorage.Heap) :
  handleRemoveCat confirmed "Other" h = (inr (), h) ∧
  ∀ (name : string) (r : CategoryStorage.array_ref) (cats : list string),
    fst (CategoryStorage.getCategories h) = inr (r, Arr cats) →
    "Other" ∈ cats →
    ∃ r' cats',
      fst (CategoryStorage.getCategories (exec (handleRemoveCat confirmed name) h))
      = inr (r', Arr cats') ∧
      "Other" ∈ cats'.
Proof.
  split; [reflexivity|]. intros name r cats Hcats Hother.
  unfold handleRemoveCat. destruct (decide (name = "Other")) as [->|Hname].
  { exists r, cats. by split. }
  destruct confirmed; [|exists r, cats; by split].
  rewrite exec_then_refreshAll.
  rewrite CategoryStorageProofs.getCategories_run.
  rewrite (CategoryStorageProofs.removeCategory_categories name h r cats Hcats).
  eexists _, _. split; [reflexivity|].
  apply list_elem_of_In, filter_In. split; [by apply list_elem_of_In|].
  apply bool_decide_eq_true. congruence.
Qed.

Lemma handleRemoveCat_guards_Other_witness :
  handleRemoveCat true "Other" Scenario.fresh = (inr (), Scenario.fresh) ∧
  ∃ r' cats',
    fst (CategoryStorage.getCategories
           (exec (handleRemoveCat true "NLP") Scenario.fresh))
    = inr (r', Arr cats') ∧
    "Other" ∈ cats'.
Proof.
  destruct (handleRemoveCat_guards_Other true Scenario.fresh) as [Hguard Hkeep].
  split; [exact Hguard|].
  apply (Hkeep "NLP" CategoryStorage.DefaultsArray DEFAULT_CATEGORIES).
  - reflexivity.
  - compute_done.
Defined.

End AppProofs.

(** * Further properties of the code *)

(** ** [src/unnamed/part_002]: deleting, saving twice, the category list *)

Module CategoryStorageFacts.
Import JS CategoryStorage JSProofs CategoryStorageProofs.

Local Abbreviation without i :=
  (List.filter (λ q : Question, bool_decide (id q ≠ i))).

Lemma deleteQuestion_run (h : Heap) (qs : list Question) (i : string) :
  stored_questions h = Arr qs →
  deleteQuestion i h = (inr (), with_questions (without i qs) h).
Proof.
  intros E. unfold deleteQuestion, mbind, M_bind.
  rewrite getQuestions_run, E. apply setItem_questions.
Qed.

Lemma without_elem_of (i : string) (qs : list Question) (q : Question) :
  q ∈ without i qs ↔ q ∈ qs ∧ id q ≠ i.
Proof.
  rewrite !list_elem_of_In, filter_In, bool_decide_eq_true. done.
Qed.

Lemma without_sublist (i : string) (qs : list Question) :
  sublist (without i qs) qs.
Proof.
  induction qs as [|q qs IH]; simpl; [constructor|].
  destruct (bool_decide (id q ≠ i)); by constructor.
Qed.

Lemma without_absent (i : string) (qs : list Question) :
  i ∉ id <$> qs → without i qs = qs.
Proof.
  induction qs as [|q qs IH]; csimpl; [done|].
  intros [Hq Hqs]%not_elem_of_cons.
  rewrite bool_decide_eq_true_2 by congruence. by rewrite IH.
Qed.

Lemma without_NoDup (i : string) (qs : list Question) :
  NoDup (id <$> qs) → NoDup (id <$> without i qs).
Proof.
  intros Hnd. eapply sublist_NoDup; [exact Hnd|].
  apply fmap_sublist, without_sublist.
Qed.

(** X1: [deleteQuestion] on a store that holds a collection returns and
    leaves the records whose id differs from the one given, in their order;
    an id that no record has leaves the collection as it was, and a
    collection without duplicate ids stays so. *)
Theorem deleteQuestion_removes (h : Heap) (qs : list Question) (i : string) :
  fst (getQuestions h) = inr (Arr qs) →
  ∃ qs',
    fst (deleteQuestion i h) = inr () ∧
    fst (getQuestions (exec (deleteQuestion i) h)) = inr (Arr qs') ∧
    sublist qs' qs ∧
    (∀ q, q ∈ qs' ↔ q ∈ qs ∧ id q ≠ i) ∧
    (i ∉ id <$> qs → qs' = qs) ∧
    (NoDup (id <$> qs) → NoDup (id <$> qs')).
Proof.
  rewrite getQuestions_run. cbn [fst]. intros [= E].
  exists (without i qs). unfold exec.
  rewrite (deleteQuestion_run h qs i E). cbn [fst snd].
  rewrite getQuestions_run, stored_with_questions. cbn [fst].
  split; [done|]. split; [done|]. split; [apply without_sublist|].
  split; [intros q; apply without_elem_of|].
  split; [apply without_absent|apply without_NoDup].
Qed.

Lemma deleteQuestion_removes_witness :
  let a := Scenario.record "a" "first" "NLP" 100 in
  let b := Scenario.record "b" "second" "Other" 200 in
  ∃ qs',
    fst (getQuestions (exec (deleteQuestion "a") (Scenario.holding [b; a])))
    = inr (Arr qs') ∧
    (∀ q, q ∈ qs' ↔ q ∈ [b; a] ∧ id q ≠ "a").
Proof.
  intros a b.
  destruct (deleteQuestion_removes (Scenario.holding [b; a]) [b; a] "a")
    as (qs' & _ & Hqs' & _ & Hin & _); [reflexivity|].
  by exists qs'.
Defined.

(** X2: saving a record whose id is new to the store and then deleting that
    id gives the collection back as it was. *)
Theorem save_then_delete (h : Heap) (qs : list Question) (q : Question) :
  fst (getQuestions h) = inr (Arr qs) →
  id q ∉ id <$> qs →
  fst (getQuestions (exec (deleteQuestion (id q)) (exec (saveQuestion q) h)))
  = inr (Arr qs).
Proof.
  rewrite getQuestions_run. cbn [fst]. intros [= E] Hnew.
  unfold exec. rewrite (saveQuestion_run h qs q E). cbn [snd].
  rewrite (deleteQuestion_run _ (upsert q qs) (id q))
    by apply stored_with_questions.
  cbn [snd]. rewrite getQuestions_run, stored_with_questions. cbn [fst].
  rewrite upsert_new.
  - simpl. rewrite bool_decide_eq_false_2 by (intros Hne; by apply Hne).
    by rewrite without_absent.
  - intros r Hr Heq. apply Hnew. rewrite <- Heq. by apply list_elem_of_fmap_2.
Qed.

Lemma save_then_delete_witness :
  let a := Scenario.record "a" "first" "NLP" 100 in
  let n := Scenario.record "n" "New?" "Other" 300 in
  fst (getQuestions
         (exec (deleteQuestion (id n))
               (exec (saveQuestion n) (Scenario.holding [a]))))
  = inr (Arr [a]).
Proof.
  intros a n. apply (save_then_delete (Scenario.holding [a]) [a] n).
  - reflexivity.
  - compute_done.
Defined.

Lemma upsert_twice (q : Question) (qs : list Question) :
  upsert q (upsert q qs) = upsert q qs.
Proof.
  destruct (upsert_cases q qs) as [(i & r & Hi & Hr & Hfirst & ->)|[Hnone ->]].
  - pose proof (lookup_lt_Some _ _ _ Hi) as Hlt.
    assert (Hfind : list_find (λ y, id y = id q) (<[i := q]> qs) = Some (i, q)).
    { apply list_find_Some. split; [by apply list_lookup_insert_eq|].
      split; [done|]. intros j y Hj Hji.
      rewrite list_lookup_insert_ne in Hj by lia. by apply (Hfirst j). }
    unfold upsert at 1, findIndex. rewrite Hfind. simpl.
    apply list_insert_insert_eq.
  - assert (Hfind : list_find (λ y, id y = id q) (q :: qs) = Some (0%nat, q)).
    { apply list_find_Some. split; [done|]. split; [done|]. intros j y _ Hj. lia. }
    unfold upsert, findIndex. rewrite Hfind. reflexivity.
Qed.

(** X3: saving the same record a second time changes nothing, whatever the
    store holds. *)
Theorem saveQuestion_idempotent (q : Question) (h : Heap) :
  exec (saveQuestion q) (exec (saveQuestion q) h) = exec (saveQuestion q) h.
Proof.
  destruct (stored_questions h) as [qs|v] eqn:E.
  - unfold exec. rewrite (saveQuestion_run h qs q E). cbn [snd].
    rewrite (saveQuestion_run _ (upsert q qs) q) by apply stored_with_questions.
    cbn [snd]. by rewrite upsert_twice, with_questions_twice.
  - assert (Hthrow : saveQuestion q h = (inl TypeError, h)).
    { unfold saveQuestion, mbind, M_bind. by rewrite getQuestions_run, E. }
    unfold exec. rewrite Hthrow. cbn [snd]. by rewrite Hthrow.
Qed.

(** *** The category list *)

Local Abbreviation with_categories cats h :=
  {| questions_item := questions_item h;
     categories_item := Some (Doc (Arr cats));
     default_categories := default_categories h |}.

Local Abbreviation keeping name :=
  (List.filter (λ c : string, bool_decide (c ≠ name))).

Local Abbreviation tagged name :=
  (existsb (λ q : Question, bool_decide (category q = name))).

(** X4: what [saveCategories] wrote is what [getCategories] reads, the empty
    list included; the default list is read only while nothing, or the
    empty string, is stored. *)
Theorem categories_round_trip :
  (∀ (h : Heap) (cats : list string),
     getCategories (exec (saveCategories (Arr cats)) h)
     = (inr (OwnArray, Arr cats), exec (saveCategories (Arr cats)) h) ∧
     getQuestions (exec (saveCategories (Arr cats)) h)
     = (inr (stored_questions h), exec (saveCategories (Arr cats)) h)) ∧
  (∀ h : Heap,
     truthy (categories_item h) = false →
     getCategories h = (inr (DefaultsArray, Arr (default_categories h)), h)).
Proof.
  split.
  - intros h cats. split; [reflexivity|]. by rewrite getQuestions_run.
  - intros h Hfalsy. rewrite getCategories_run.
    by destruct (categories_item h) as [[| |v]|].
Qed.

Lemma categories_round_trip_witness :
  getCategories (exec (saveCategories (Arr [])) Scenario.fresh)
  = (inr (OwnArray, Arr []), exec (saveCategories (Arr [])) Scenario.fresh) ∧
  getCategories Scenario.fresh
  = (inr (DefaultsArray, Arr DEFAULT_CATEGORIES), Scenario.fresh).
Proof.
  destruct categories_round_trip as [Hsaved Hdefault]. split.
  - apply (Hsaved Scenario.fresh []).
  - apply (Hdefault Scenario.fresh). reflexivity.
Defined.

(** X5: text under the categories key that [JSON.parse] rejects is not
    recovered from: [getCategories], [renameCategory], [removeCategory] and
    [refreshAll] all throw [SyntaxError], and the store stays as it was. *)
Theorem categories_unparseable (h : Heap) (oldName newName name : string) :
  categories_item h = Some Junk →
  getCategories h = (inl SyntaxError, h) ∧
  renameCategory oldName newName h = (inl SyntaxError, h) ∧
  removeCategory name h = (inl SyntaxError, h) ∧
  App.refreshAll h = (inl SyntaxError, h).
Proof.
  intros E.
  assert (Hget : getCategories h = (inl SyntaxError, h)).
  { by rewrite getCategories_run, E. }
  split; [done|].
  split; [unfold renameCategory, mbind, M_bind; by rewrite Hget|].
  split; [unfold removeCategory, mbind, M_bind; by rewrite Hget|].
  unfold App.refreshAll, mbind, M_bind. by rewrite getQuestions_run, Hget.
Qed.

Lemma categories_unparseable_witness :
  let h := {| questions_item := None; categories_item := Some Junk;
              default_categories := DEFAULT_CATEGORIES |} in
  getCategories h = (inl SyntaxError, h) ∧
  renameCategory "NLP" "Language" h = (inl SyntaxError, h) ∧
  removeCategory "NLP" h = (inl SyntaxError, h) ∧
  App.refreshAll h = (inl SyntaxError, h).
Proof. intros h. by apply (categories_unparseable h). Defined.

Lemma cascade_exec (from to : string) (h : Heap) :
  exec (cascade from to) h =
  match stored_questions h with
  | Arr qs => if tagged from qs then with_questions (retag from to <$> qs) h
              else h
  | NonArr _ => h
  end.
Proof.
  unfold exec, cascade, mbind, M_bind. rewrite getQuestions_run.
  destruct (stored_questions h) as [qs|v]; [|done].
  rewrite recategorize_spec. simpl. by destruct (tagged from qs).
Qed.

Lemma retag_twice (from to : string) (q : Question) :
  retag from to (retag from to q) = retag from to q.
Proof.
  unfold retag. destruct (decide (category q = from)) as [Hq|Hq].
  - simpl. destruct (decide (to = from)); [|done]. by destruct q.
  - by rewrite decide_False.
Qed.

Lemma retag_keeps_id (from to : string) (qs : list Question) :
  id <$> (retag from to <$> qs) = id <$> qs.
Proof.
  rewrite <- list_fmap_compose. apply list_fmap_ext. intros j q _. simpl.
  unfold retag. by destruct (decide _).
Qed.

Lemma cascade_twice (from to : string) (h : Heap) :
  exec (cascade from to) (exec (cascade from to) h) = exec (cascade from to) h.
Proof.
  rewrite (cascade_exec from to h).
  destruct (stored_questions h) as [qs|v] eqn:E.
  - destruct (tagged from qs) eqn:Hany.
    + rewrite cascade_exec, stored_with_questions.
      rewrite <- list_fmap_compose.
      rewrite (list_fmap_ext (retag from to ∘ retag from to) (retag from to))
        by (intros; apply retag_twice).
      destruct (tagged from (retag from to <$> qs)); [|done].
      apply with_questions_twice.
    + by rewrite cascade_exec, E, Hany.
  - by rewrite cascade_exec, E.
Qed.

Lemma removeCategory_exec (name : string) (h : Heap) (r : array_ref)
    (cats : list string) :
  fst (getCategories h) = inr (r, Arr cats) →
  exec (removeCategory name) h
  = exec (cascade name "Other") (with_categories (keeping name cats) h).
Proof.
  intros Hcats. unfold exec at 1. unfold removeCategory, mbind, M_bind.
  rewrite (getCategories_array h r cats Hcats). reflexivity.
Qed.

Lemma removeCategory_stuck (name : string) (h : Heap) :
  (∀ r cats, fst (getCategories h) ≠ inr (r, Arr cats)) →
  exec (removeCategory name) h = h.
Proof.
  intros Hno. unfold exec, removeCategory, mbind, M_bind.
  rewrite getCategories_run in *.
  destruct (categories_item h) as [[| |[cats|v]]|]; simpl in *; try done;
    exfalso; by eapply Hno.
Qed.

Lemma removeCategory_run (name : string) (h : Heap) (r : array_ref)
    (cats : list string) (qs : list Question) :
  fst (getCategories h) = inr (r, Arr cats) →
  stored_questions h = Arr qs →
  ∃ h', removeCategory name h = (inr (), h') ∧
        categories_item h' = Some (Doc (Arr (keeping name cats))) ∧
        stored_questions h' = Arr (retag name "Other" <$> qs) ∧
        default_categories h' = default_categories h.
Proof.
  intros Hcats Hqs. unfold removeCategory, mbind, M_bind.
  rewrite (getCategories_array h r cats Hcats).
  unfold saveCategories, setItem, JSON_stringify. cbn beta iota zeta.
  match goal with |- context [cascade _ _ ?h0] =>
    destruct (cascade_run name "Other" h0 qs) as (h' & Hrun & Hq' & Hc' & Hd')
  end; [done|].
  exists h'. by rewrite Hrun.
Qed.

(** X6: [removeCategory] on a readable category list and collection returns;
    the list keeps the labels other than the one removed, in their order;
    every record that had that category is the same record with the
    category ["Other"], and every other record is unchanged, in its place. *)
Theorem removeCategory_cascades (h : Heap) (r : array_ref)
    (cats : list string) (qs : list Question) (name : string) :
  fst (getCategories h) = inr (r, Arr cats) →
  fst (getQuestions h) = inr (Arr qs) →
  ∃ cats' qs',
    fst (removeCategory name h) = inr () ∧
    fst (getCategories (exec (removeCategory name) h))
    = inr (OwnArray, Arr cats') ∧
    sublist cats' cats ∧
    (∀ c, c ∈ cats' ↔ c ∈ cats ∧ c ≠ name) ∧
    fst (getQuestions (exec (removeCategory name) h)) = inr (Arr qs') ∧
    length qs' = length qs ∧
    (∀ j q, qs !! j = Some q →
       (category q = name → qs' !! j = Some (set_category "Other" q)) ∧
       (category q ≠ name → qs' !! j = Some q)).
Proof.
  intros Hcats. rewrite getQuestions_run. cbn [fst]. intros [= Hqs].
  destruct (removeCategory_run name h r cats qs Hcats Hqs)
    as (h' & Hrun & Hc' & Hq' & _).
  exists (keeping name cats), (retag name "Other" <$> qs).
  unfold exec. rewrite Hrun. cbn [fst snd].
  rewrite getCategories_run, Hc', getQuestions_run, Hq'. cbn [fst].
  split; [done|]. split; [done|]. split.
  { clear. induction cats as [|c cats IH]; simpl; [constructor|].
    destruct (bool_decide (c ≠ name)); by constructor. }
  split.
  { intros c. by rewrite !list_elem_of_In, filter_In, bool_decide_eq_true. }
  split; [done|]. split; [apply length_fmap|].
  intros j q Hj. rewrite list_lookup_fmap, Hj. unfold retag. simpl.
  split; intros Hq; [by rewrite decide_True|by rewrite decide_False].
Qed.

Lemma removeCategory_cascades_witness :
  let a := Scenario.record "a" "attention" "NLP" 100 in
  let b := Scenario.record "b" "tell me about you" "Behavioral" 200 in
  ∃ cats' qs',
    fst (removeCategory "NLP" (Scenario.holding [a; b])) = inr () ∧
    fst (getCategories (exec (removeCategory "NLP") (Scenario.holding [a; b])))
    = inr (OwnArray, Arr cats') ∧
    sublist cats' DEFAULT_CATEGORIES ∧
    (∀ c, c ∈ cats' ↔ c ∈ DEFAULT_CATEGORIES ∧ c ≠ "NLP") ∧
    fst (getQuestions (exec (removeCategory "NLP") (Scenario.holding [a; b])))
    = inr (Arr qs') ∧
    length qs' = length [a; b] ∧
    (∀ j q, [a; b] !! j = Some q →
       (category q = "NLP" → qs' !! j = Some (set_category "Other" q)) ∧
       (category q ≠ "NLP" → qs' !! j = Some q)).
Proof.
  intros a b.
  apply (removeCategory_cascades (Scenario.holding [a; b]) DefaultsArray
           DEFAULT_CATEGORIES [a; b] "NLP"); reflexivity.
Defined.

Lemma indexOf_absent (cats : list string) (x : string) :
  x ∉ cats → indexOf cats x = None.
Proof.
  intros Hx. unfold indexOf, findIndex.
  destruct (list_find (λ y, y = x) cats) as [[i y]|] eqn:E; [|done].
  apply list_find_Some in E as (Hi & -> & _).
  exfalso. apply Hx. by eapply list_elem_of_lookup_2.
Qed.

Lemma renameCategory_skips (h : Heap) (r : array_ref) (cats : list string)
    (oldName newName : string) :
  fst (getCategories h) = inr (r, Arr cats) →
  oldName ∉ cats →
  renameCategory oldName newName h = (inr (), h).
Proof.
  intros Hcats Hold. unfold renameCategory, mbind, M_bind.
  by rewrite (getCategories_array h r cats Hcats), indexOf_absent.
Qed.

(** X7: renaming a label that the category list does not have changes
    nothing, not even the records that carry that label. *)
Theorem renameCategory_absent (h : Heap) (r : array_ref) (cats : list string)
    (qs : list Question) (oldName newName : string) :
  fst (getCategories h) = inr (r, Arr cats) →
  fst (getQuestions h) = inr (Arr qs) →
  oldName ∉ cats →
  renameCategory oldName newName h = (inr (), h) ∧
  fst (getCategories (exec (renameCategory oldName newName) h))
  = inr (r, Arr cats) ∧
  fst (getQuestions (exec (renameCategory oldName newName) h)) = inr (Arr qs).
Proof.
  intros Hcats Hqs Hold. unfold exec.
  by rewrite (renameCategory_skips h r cats oldName newName Hcats Hold).
Qed.

Lemma renameCategory_absent_witness :
  let a := Scenario.record "a" "orphan" "Databases" 100 in
  renameCategory "Databases" "Storage" (Scenario.holding [a])
  = (inr (), Scenario.holding [a]) ∧
  fst (getCategories (exec (renameCategory "Databases" "Storage")
                        (Scenario.holding [a])))
  = inr (DefaultsArray, Arr DEFAULT_CATEGORIES) ∧
  fst (getQuestions (exec (renameCategory "Databases" "Storage")
                       (Scenario.holding [a])))
  = inr (Arr [a]).
Proof.
  intros a.
  apply (renameCategory_absent (Scenario.holding [a]) DefaultsArray
           DEFAULT_CATEGORIES [a]).
  - reflexivity.
  - reflexivity.
  - compute_done.
Defined.

Lemma indexOf_inserted (cats : list string) (i : nat) (x y : string) :
  cats !! i = Some x → y ∉ cats → indexOf (<[i := y]> cats) y = Some i.
Proof.
  intros Hi Hy. unfold indexOf, findIndex.
  assert (Hfind : list_find (λ z, z = y) (<[i := y]> cats) = Some (i, y)).
  { apply list_find_Some. split.
    - apply list_lookup_insert_eq. by eapply lookup_lt_Some.
    - split; [done|]. intros j z Hj Hji ->.
      rewrite list_lookup_insert_ne in Hj by lia.
      apply Hy. by eapply list_elem_of_lookup_2. }
  by rewrite Hfind.
Qed.

Lemma retag_back (oldName newName : string) (qs : list Question) :
  (∀ q, q ∈ qs → category q ≠ newName) →
  retag newName oldName <$> (retag oldName newName <$> qs) = qs.
Proof.
  intros Hfree. rewrite <- list_fmap_compose.
  rewrite <- (list_fmap_id qs) at 2. apply list_fmap_ext.
  intros j q Hj. simpl.
  assert (Hq : category q ≠ newName).
  { apply Hfree. by eapply list_elem_of_lookup_2. }
  unfold retag. destruct (decide (category q = oldName)) as [Hold|Hold].
  - simpl. rewrite decide_True by done. destruct q. simpl in *. by subst.
  - by rewrite decide_False.
Qed.

(** X8: renaming a label to one that neither the list nor any record uses,
    and then renaming it back, restores the category list and the
    collection. *)
Theorem renameCategory_back (h : Heap) (r : array_ref) (cats : list string)
    (qs : list Question) (oldName newName : string) :
  fst (getCategories h) = inr (r, Arr cats) →
  fst (getQuestions h) = inr (Arr qs) →
  oldName ∈ cats →
  newName ∉ cats →
  (∀ q, q ∈ qs → category q ≠ newName) →
  let h' := exec (renameCategory newName oldName)
              (exec (renameCategory oldName newName) h) in
  fst (getCategories h') = inr (OwnArray, Arr cats) ∧
  fst (getQuestions h') = inr (Arr qs).
Proof.
  intros Hcats. rewrite getQuestions_run. cbn [fst]. intros [= Hqs].
  intros Hold Hnew Hfree.
  destruct (indexOf_first cats oldName Hold) as (index & Hidx & Hat & _).
  destruct (renameCategory_run h r cats qs oldName newName index Hcats Hidx Hqs)
    as (h1 & Hrun1 & Hc1 & Hq1).
  unfold exec at 2 4. rewrite Hrun1. cbn [snd].
  assert (Hcats1 : fst (getCategories h1)
                   = inr (OwnArray, Arr (<[index := newName]> cats))).
  { by rewrite getCategories_run, Hc1. }
  destruct (renameCategory_run h1 OwnArray _ _ newName oldName index Hcats1
              (indexOf_inserted cats index oldName newName Hat Hnew) Hq1)
    as (h2 & Hrun2 & Hc2 & Hq2).
  unfold exec. rewrite Hrun2. cbn [snd].
  rewrite getCategories_run, Hc2, getQuestions_run, Hq2. cbn [fst].
  rewrite list_insert_insert_eq, list_insert_id by done.
  by rewrite retag_back.
Qed.

Lemma renameCategory_back_witness :
  let a := Scenario.record "a" "sort a list" "Algorithm" 100 in
  let b := Scenario.record "b" "tell me about you" "Behavioral" 200 in
  let h' := exec (renameCategory "Algos" "Algorithm")
              (exec (renameCategory "Algorithm" "Algos")
                 (Scenario.holding [a; b])) in
  fst (getCategories h') = inr (OwnArray, Arr DEFAULT_CATEGORIES) ∧
  fst (getQuestions h') = inr (Arr [a; b]).
Proof.
  intros a b.
  apply (renameCategory_back (Scenario.holding [a; b]) DefaultsArray
           DEFAULT_CATEGORIES [a; b] "Algorithm" "Algos").
  - reflexivity.
  - reflexivity.
  - compute_done.
  - compute_done.
  - intros q Hq. apply elem_of_cons in Hq as [->|Hq]; [discriminate|].
    apply elem_of_cons in Hq as [->|Hq]; [discriminate|]. inversion Hq.
Defined.

Lemma keeping_twice (name : string) (cats : list string) :
  keeping name (keeping name cats) = keeping name cats.
Proof.
  induction cats as [|c cats IH]; simpl; [done|].
  destruct (bool_decide (c ≠ name)) eqn:E; simpl; [|done].
  by rewrite E, IH.
Qed.

Lemma cascade_exec_categories (from to : string) (h : Heap) :
  categories_item (exec (cascade from to) h) = categories_item h.
Proof. apply cascade_frame. Qed.

Lemma getCategories_array_or_not (h : Heap) :
  (∃ r cats, fst (getCategories h) = inr (r, Arr cats)) ∨
  (∀ r cats, fst (getCategories h) ≠ inr (r, Arr cats)).
Proof.
  rewrite getCategories_run.
  destruct (categories_item h) as [[| |[cats|v]]|]; simpl;
    (by left; eexists _, _) || (by right).
Qed.

(** X9: removing a category a second time changes nothing, whatever the
    store holds. *)
Theorem removeCategory_idempotent (name : string) (h : Heap) :
  exec (removeCategory name) (exec (removeCategory name) h)
  = exec (removeCategory name) h.
Proof.
  destruct (getCategories_array_or_not h) as [(r & cats & Hcats)|Hstuck].
  - rewrite (removeCategory_exec name h r cats Hcats).
    set (h1 := exec (cascade name "Other") (with_categories (keeping name cats) h)).
    assert (Hc : categories_item h1 = Some (Doc (Arr (keeping name cats)))).
    { unfold h1. by rewrite cascade_exec_categories. }
    assert (Hcats1 : fst (getCategories h1)
                     = inr (OwnArray, Arr (keeping name cats))).
    { by rewrite getCategories_run, Hc. }
    rewrite (removeCategory_exec name h1 OwnArray _ Hcats1), keeping_twice.
    assert (Hsame : with_categories (keeping name cats) h1 = h1).
    { destruct h1. simpl in *. by subst. }
    rewrite Hsame. apply cascade_twice.
  - rewrite (removeCategory_stuck name h Hstuck).
    apply (removeCategory_stuck name h Hstuck).
Qed.

Lemma renameCategory_defaults (h : Heap) (cats : list string)
    (oldName newName : string) (index : nat) :
  fst (getCategories h) = inr (DefaultsArray, Arr cats) →
  indexOf cats oldName = Some index →
  default_categories (exec (renameCategory oldName newName) h)
  = <[index := newName]> cats.
Proof.
  intros Hcats Hidx. unfold exec, renameCategory, mbind, M_bind.
  rewrite (getCategories_array h DefaultsArray cats Hcats), Hidx.
  unfold assign, saveCategories, setItem, JSON_stringify. cbn beta iota zeta.
  match goal with |- context [cascade ?a ?b ?h0] =>
    pose proof (cascade_frame a b h0) as [_ Hd]; unfold exec in Hd;
    destruct (cascade a b h0) as [[e|[]] h2]
  end; simpl in *; by rewrite Hd.
Qed.

Lemma removeCategory_keeps_defaults (name : string) (h : Heap) :
  default_categories (exec (removeCategory name) h) = default_categories h.
Proof.
  destruct (getCategories_array_or_not h) as [(r & cats & Hcats)|Hstuck].
  - rewrite (removeCategory_exec name h r cats Hcats).
    by destruct (cascade_frame name "Other"
                   (with_categories (keeping name cats) h)) as [_ ->].
  - by rewrite (removeCategory_stuck name h Hstuck).
Qed.

(** X10: while no category list is stored, [getCategories] hands out the
    exported [DEFAULT_CATEGORIES] array itself, and [renameCategory] writes
    the new label into it: the defaults of the running application then
    carry the new label and have lost the old one at that place.
    [removeCategory] never changes them. *)
Theorem renameCategory_rewrites_defaults (h : Heap)
    (oldName newName : string) :
  truthy (categories_item h) = false →
  oldName ∈ default_categories h →
  ∃ index,
    default_categories h !! index = Some oldName ∧
    default_categories (exec (renameCategory oldName newName) h)
    = <[index := newName]> (default_categories h) ∧
    default_categories (exec (renameCategory oldName newName) h) !! index
    = Some newName ∧
    ∀ name, default_categories (exec (removeCategory name) h)
            = default_categories h.
Proof.
  intros Hfalsy Hold.
  destruct (indexOf_first _ oldName Hold) as (index & Hidx & Hat & _).
  assert (Hcats : fst (getCategories h)
                  = inr (DefaultsArray, Arr (default_categories h))).
  { rewrite getCategories_run. by destruct (categories_item h) as [[| |v]|]. }
  exists index. split; [done|].
  rewrite (renameCategory_defaults h _ oldName newName index Hcats Hidx).
  split; [done|]. split.
  - apply list_lookup_insert_eq. by eapply lookup_lt_Some.
  - intros name. apply removeCategory_keeps_defaults.
Qed.

Lemma renameCategory_rewrites_defaults_witness :
  ∃ index,
    default_categories Scenario.fresh !! index = Some "Other" ∧
    default_categories (exec (renameCategory "Other" "Misc") Scenario.fresh)
    = <[index := "Misc"]> (default_categories Scenario.fresh) ∧
    default_categories (exec (renameCategory "Other" "Misc") Scenario.fresh)
      !! index = Some "Misc" ∧
    ∀ name, default_categories (exec (removeCategory name) Scenario.fresh)
            = default_categories Scenario.fresh.
Proof.
  apply (renameCategory_rewrites_defaults Scenario.fresh "Other" "Misc").
  - reflexivity.
  - compute_done.
Defined.

(** *** More on [importQuestions] *)

Local Abbreviation entries := (fmap (M := list) (λ q : Question, (id q, q))).
Local Abbreviation newest := (λ a b : Question, createdAt b - createdAt a).

(** X12: whatever collection the store holds, duplicates of an id or any
    order, the collection that [importQuestions] writes has one record per
    id and is sorted by [createdAt] descending. *)
Theorem importQuestions_normalises (h : Heap) (current batch : list Question) :
  fst (getQuestions h) = inr (Arr current) →
  ∃ qs,
    fst (importQuestions (Arr batch) h) = inr () ∧
    fst (getQuestions (exec (importQuestions (Arr batch)) h)) = inr (Arr qs) ∧
    NoDup (id <$> qs) ∧
    newest_first qs.
Proof.
  rewrite getQuestions_run. cbn [fst]. intros [= E].
  exists (merged current batch). unfold exec.
  rewrite (importQuestions_run h current batch E). cbn [fst snd].
  rewrite getQuestions_run, stored_with_questions. cbn [fst].
  split; [done|]. split; [done|].
  split; [apply merged_NoDup|apply merged_newest_first].
Qed.

Lemma importQuestions_normalises_witness :
  let a1 := Scenario.record "a" "first copy" "NLP" 100 in
  let a2 := Scenario.record "a" "second copy" "NLP" 150 in
  let b := Scenario.record "b" "other" "Other" 200 in
  ∃ qs,
    fst (importQuestions (Arr []) (Scenario.holding [a1; a2; b])) = inr () ∧
    fst (getQuestions
           (exec (importQuestions (Arr [])) (Scenario.holding [a1; a2; b])))
    = inr (Arr qs) ∧
    NoDup (id <$> qs) ∧
    newest_first qs.
Proof.
  intros a1 a2 b.
  apply (importQuestions_normalises (Scenario.holding [a1; a2; b]) [a1; a2; b]).
  reflexivity.
Defined.

Lemma latest_fold_origin (batch : list Question) (k : string)
    (found : option Question) (v : Question) :
  fold_left (latest k) batch found = Some v →
  found = Some v ∨ (v ∈ batch ∧ importable v = true ∧ id v = k).
Proof.
  revert found. induction batch as [|c batch IH]; intros found; simpl.
  - by left.
  - intros Hv. apply IH in Hv as [Hv|(Hin & Hok & Hid)].
    + unfold latest in Hv.
      destruct (importable c) eqn:Hc; simpl in Hv; [|by left].
      case_bool_decide as Hk; [|by left].
      injection Hv as <-. right. split; [by left|done].
    + right. split; [by right|done].
Qed.

(** What the merge holds, for a store without duplicate ids. *)
Lemma merged_elem_of (current batch : list Question) (v : Question) :
  NoDup (id <$> current) →
  v ∈ merged current batch ↔
  fold_left (latest (id v)) batch
    ((list_to_map (entries current) : gmap string Question) !! id v) = Some v.
Proof.
  intros Hnd. unfold merged. rewrite (sort_Permutation newest).
  set (m1 := fold_left import_one batch (Map_new (entries current))).
  assert (Hm1 : keyed_by_id m1) by apply keyed_import_fold, keyed_Map_new.
  assert (Hview : ∀ k, Map_view m1 !! k
    = fold_left (latest k) batch
        ((list_to_map (entries current) : gmap string Question) !! k)).
  { intros k. unfold m1. rewrite view_import_fold.
    by rewrite Map_new_NoDup by by rewrite entries_keys. }
  rewrite <- Hview. unfold Map_values, Map_view. split.
  - intros ([k v'] & -> & Hin)%list_elem_of_fmap. simpl.
    destruct Hm1 as [Hkeys Hall].
    assert (k = id v') as ->.
    { by apply (proj1 (Forall_forall _ _) Hall (k, v')). }
    by apply elem_of_list_to_map.
  - intros Hv. apply elem_of_list_to_map in Hv; [|by destruct Hm1].
    apply list_elem_of_fmap. by exists (id v, v).
Qed.

(** X13: on a store without duplicate ids, [importQuestions] invents no
    record and loses none that the batch does not replace: every record it
    leaves was in the store or is an importable record of the batch, every
    stored record whose id no importable record of the batch has stays, and
    the id of every importable record of the batch is present. *)
Theorem importQuestions_frame (h : Heap) (current batch : list Question) :
  fst (getQuestions h) = inr (Arr current) →
  NoDup (id <$> current) →
  ∃ qs,
    fst (getQuestions (exec (importQuestions (Arr batch)) h)) = inr (Arr qs) ∧
    (∀ v, v ∈ qs → v ∈ current ∨ (v ∈ batch ∧ id v ≠ "" ∧ text v ≠ "")) ∧
    (∀ v, v ∈ current →
          (∀ b, b ∈ batch → id b ≠ "" → text b ≠ "" → id b ≠ id v) →
          v ∈ qs) ∧
    (∀ b, b ∈ batch → id b ≠ "" → text b ≠ "" → id b ∈ id <$> qs).
Proof.
  rewrite getQuestions_run. cbn [fst]. intros [= E] Hnd.
  exists (merged current batch). unfold exec.
  rewrite (importQuestions_run h current batch E). cbn [fst snd].
  rewrite getQuestions_run, stored_with_questions. cbn [fst].
  split; [done|].
  assert (Hentries : NoDup (entries current).*1) by by rewrite entries_keys.
  split; [|split].
  - intros v Hv. apply merged_elem_of in Hv; [|done].
    apply latest_fold_origin in Hv as [Hv|(Hin & Hok & _)].
    + left. apply elem_of_list_to_map in Hv; [|done].
      apply list_elem_of_fmap in Hv as (q & [= _ ->] & Hq). done.
    + right. split; [done|]. by apply importable_spec.
  - intros v Hv Hfree. apply merged_elem_of; [done|].
    rewrite latest_fold_none.
    + apply elem_of_list_to_map; [done|].
      apply list_elem_of_fmap. by exists v.
    + intros b Hb [? ?]%importable_spec. by apply Hfree.
  - intros b Hb Hid Htext.
    unfold merged. rewrite (sort_Permutation newest).
    rewrite keyed_values_ids by apply keyed_import_fold, keyed_Map_new.
    apply import_fold_keys_has; [done|]. by apply importable_spec.
Qed.

Lemma importQuestions_frame_witness :
  let a := Scenario.record "a" "kept" "NLP" 100 in
  let b := Scenario.record "b" "replaced" "Other" 200 in
  let b' := Scenario.record "b" "replacement" "Other" 300 in
  ∃ qs,
    fst (getQuestions
           (exec (importQuestions (Arr [b'])) (Scenario.holding [b; a])))
    = inr (Arr qs) ∧
    a ∈ qs ∧ id b' ∈ id <$> qs.
Proof.
  intros a b b'.
  destruct (importQuestions_frame (Scenario.holding [b; a]) [b; a] [b'])
    as (qs & Hqs & _ & Hkept & Hids).
  - reflexivity.
  - compute_done.
  - exists qs. split; [exact Hqs|]. split.
    + apply Hkept; [by right; left|].
      intros x Hx _ _. apply list_elem_of_singleton in Hx as ->. discriminate.
    + apply Hids; [by left|discriminate|discriminate].
Defined.

Lemma import_fold_entries (batch : list Question) (m : Map string Question) :
  Forall (λ q, importable q = true) batch →
  fold_left import_one batch m
  = fold_left (λ m e, Map_set e.1 e.2 m) (entries batch) m.
Proof.
  intros Hall. revert m.
  induction Hall as [|q batch Hq Hall IH]; intros m; csimpl; [done|].
  rewrite IH. unfold import_one at 1. unfold importable in Hq. by rewrite Hq.
Qed.

(** X14: importing, into an empty store, a collection without duplicate ids
    whose records all have a non-empty [id] and [text] stores exactly these
    records, sorted by [createdAt] descending; such is the outcome of
    importing back what was exported. *)
Theorem importQuestions_into_empty (h : Heap) (qs : list Question) :
  fst (getQuestions h) = inr (Arr []) →
  NoDup (id <$> qs) →
  Forall (λ q, id q ≠ "" ∧ text q ≠ "") qs →
  ∃ qs',
    fst (getQuestions (exec (importQuestions (Arr qs)) h)) = inr (Arr qs') ∧
    qs' = sort (λ a b, createdAt b - createdAt a) qs ∧
    qs' ≡ₚ qs ∧
    (newest_first qs → qs' = qs).
Proof.
  rewrite getQuestions_run. cbn [fst]. intros [= E] Hnd Hall.
  exists (merged [] qs). unfold exec.
  rewrite (importQuestions_run h [] qs E). cbn [fst snd].
  rewrite getQuestions_run, stored_with_questions. cbn [fst].
  assert (Hm : merged [] qs = sort newest qs).
  { unfold merged. rewrite import_fold_entries.
    - change (Map_new (entries [])) with (@nil (string * Question)).
      rewrite Map_fold_set_fresh by (simpl; by rewrite entries_keys).
      simpl. by rewrite entries_values.
    - eapply Forall_impl; [exact Hall|]. intros q. apply importable_spec. }
  split; [done|]. split; [done|].
  split; [rewrite Hm; apply sort_Permutation|].
  intros Hsorted. rewrite Hm. by apply (sort_ordered_id createdAt).
Qed.

Lemma importQuestions_into_empty_witness :
  let a := Scenario.record "a" "first" "NLP" 100 in
  let b := Scenario.record "b" "second" "Other" 200 in
  ∃ qs',
    fst (getQuestions (exec (importQuestions (Arr [a; b])) Scenario.fresh))
    = inr (Arr qs') ∧
    qs' = sort (λ a b, createdAt b - createdAt a) [a; b] ∧
    qs' ≡ₚ [a; b] ∧
    (newest_first [a; b] → qs' = [a; b]).
Proof.
  intros a b.
  apply (importQuestions_into_empty Scenario.fresh [a; b]).
  - reflexivity.
  - compute_done.
  - repeat constructor; discriminate.
Defined.

End CategoryStorageFacts.

(** ** Sessions over [src/unnamed/part_002] *)

Module SessionFacts.
Import JS CategoryStorage JSProofs CategoryStorageProofs CategoryStorageFacts.
Import Session.

Lemma getCategories_with_questions (qs : list Question) (h : Heap) :
  fst (getCategories (with_questions qs h)) = fst (getCategories h).
Proof.
  rewrite !getCategories_run. simpl.
  by destruct (categories_item h) as [[| |v]|].
Qed.

Lemma in_order_with_questions (qs : list Question) (h : Heap) :
  NoDup (id <$> qs) →
  (∃ r cats, fst (getCategories h) = inr (r, Arr cats)) →
  in_order (with_questions qs h).
Proof.
  intros Hnd (r & cats & Hcats). split.
  - exists qs. by rewrite getQuestions_run, stored_with_questions.
  - exists r, cats. by rewrite getCategories_with_questions.
Qed.

Lemma run_in_order (c : command) (h : Heap) :
  in_order h → fst (run c h) = inr () ∧ in_order (exec (run c) h).
Proof.
  intros [(qs & Hqs & Hnd) (r & cats & Hcats)].
  rewrite getQuestions_run in Hqs. cbn [fst] in Hqs. injection Hqs as Hqs.
  destruct c as [q|i|batch|oldName newName|name]; unfold exec; cbn [run].
  - rewrite (saveQuestion_run h qs q Hqs). split; [done|].
    apply in_order_with_questions; [by apply upsert_NoDup|by exists r, cats].
  - rewrite (deleteQuestion_run h qs i Hqs). split; [done|].
    apply in_order_with_questions; [by apply without_NoDup|by exists r, cats].
  - rewrite (importQuestions_run h qs batch Hqs). split; [done|].
    apply in_order_with_questions; [apply merged_NoDup|by exists r, cats].
  - destruct (decide (oldName ∈ cats)) as [Hold|Hold].
    + destruct (indexOf_first cats oldName Hold) as (index & Hidx & _).
      destruct (renameCategory_run h r cats qs oldName newName index
                  Hcats Hidx Hqs) as (h' & -> & Hc' & Hq').
      split; [done|]. cbn [snd]. split.
      * exists (retag oldName newName <$> qs).
        rewrite getQuestions_run, Hq'. split; [done|].
        by rewrite retag_keeps_id.
      * eexists _, _. by rewrite getCategories_run, Hc'.
    + rewrite (renameCategory_skips h r cats oldName newName Hcats Hold).
      split; [done|]. cbn [snd]. split.
      * exists qs. by rewrite getQuestions_run, Hqs.
      * by exists r, cats.
  - destruct (removeCategory_run name h r cats qs Hcats Hqs)
      as (h' & -> & Hc' & Hq' & _).
    split; [done|]. cbn [snd]. split.
    + exists (retag name "Other" <$> qs).
      rewrite getQuestions_run, Hq'. split; [done|].
      by rewrite retag_keeps_id.
    + eexists _, _. by rewrite getCategories_run, Hc'.
Qed.

(** X11: from a store in order (an array collection with one record per
    id, a category list that reads as an array), no operation of the
    service throws, and whatever operations run in whatever order, the
    store stays in order. *)
Theorem session_in_order (cs : list command) (h : Heap) :
  in_order h →
  in_order (run_all cs h) ∧
  ∀ c, fst (run c (run_all cs h)) = inr ().
Proof.
  intros Hh.
  assert (Hall : in_order (run_all cs h)).
  { unfold run_all. revert h Hh.
    induction cs as [|c cs IH]; intros h Hh; simpl; [done|].
    apply IH. by apply run_in_order. }
  split; [done|]. intros c. by apply run_in_order.
Qed.

Lemma session_in_order_witness :
  let a := Scenario.record "a" "attention" "NLP" 100 in
  let b := Scenario.record "b" "tell me about you" "Behavioral" 200 in
  let cs := [SaveQuestion a; ImportQuestions [b; a]; RenameCategory "NLP" "Text";
             DeleteQuestion "b"; RemoveCategory "Behavioral"] in
  in_order (run_all cs Scenario.fresh) ∧
  ∀ c, fst (run c (run_all cs Scenario.fresh)) = inr ().
Proof.
  intros a b cs. apply (session_in_order cs Scenario.fresh).
  split.
  - exists []. split; [reflexivity|constructor].
  - by exists DefaultsArray, DEFAULT_CATEGORIES.
Defined.

End SessionFacts.

(** ** [src/services/storageService.ts]: the writers over the legacy-aware
       store *)

Module LegacyServiceFacts.
Import JS LegacyStorage LegacyStorageProofs LegacyService.

Lemma legacy_loop_outcome (keys : list string) (ls : Storage) :
  (legacy_loop keys ls = (inr None, ls) ∧
   ∀ k items, k ∈ keys → ¬ adoptable ls k items) ∨
  (∃ k items, k ∈ keys ∧ adoptable ls k items ∧
     legacy_loop keys ls
     = (inr (Some (Arr items)), <[STORAGE_KEY := Doc (Arr items)]> ls)).
Proof.
  induction keys as [|k0 keys IH].
  - left. split; [done|]. intros k items Hk. inversion Hk.
  - destruct (adoptable_dec ls k0) as [[items0 H0]|Hno].
    + right. exists k0, items0. split; [by left|]. split; [done|].
      by apply legacy_step_adopt.
    + rewrite legacy_step_skip by done.
      destruct IH as [[Hrun Hnone]|(k & items & Hk & Had & Hrun)].
      * left. split; [done|]. intros k items Hk.
        apply elem_of_cons in Hk as [->|Hk]; [apply Hno|by apply Hnone].
      * right. exists k, items. split; [by right|done].
Qed.

Lemma getQuestions_outcome (ls : Storage) :
  (∃ v, getQuestions ls = (inr v, ls) ∧
        (truthy (ls !! STORAGE_KEY) = false →
         v = Arr [] ∧ ∀ k items, k ∈ LEGACY_KEYS → ¬ adoptable ls k items)) ∨
  (truthy (ls !! STORAGE_KEY) = false ∧
   ∃ k items, k ∈ LEGACY_KEYS ∧ adoptable ls k items ∧
     getQuestions ls
     = (inr (Arr items), <[STORAGE_KEY := Doc (Arr items)]> ls)).
Proof.
  rewrite getQuestions_unfold.
  destruct (ls !! STORAGE_KEY) as [[| |v]|] eqn:E; cbn [truthy].
  2,3: left; eexists; split; [reflexivity|done].
  all: destruct (legacy_loop_outcome LEGACY_KEYS ls)
         as [[-> Hnone]|(k & items & Hk & Had & ->)];
       [left; eexists; split; [reflexivity|]; by intros _
       |right; split; [done|]; by exists k, items].
Qed.

Lemma getQuestions_state (ls : Storage) :
  exec getQuestions ls = ls ∨
  ∃ items, exec getQuestions ls = <[STORAGE_KEY := Doc (Arr items)]> ls.
Proof.
  destruct (getQuestions_outcome ls)
    as [(v & Hrun & _)|(_ & k & items & _ & _ & Hrun)];
    unfold exec; rewrite Hrun; [by left|right; by exists items].
Qed.

Lemma setItem_after_read (ls : Storage) (value : DOMString Question) :
  exec (setItem STORAGE_KEY value) (exec getQuestions ls)
  = <[STORAGE_KEY := value]> ls.
Proof.
  unfold exec at 1. simpl.
  destruct (getQuestions_state ls) as [->|[items ->]]; [done|].
  apply insert_insert_eq.
Qed.

Lemma after_read (ls ls' : Storage) (v : exn + JSON Question)
    (value : DOMString Question) :
  getQuestions ls = (v, ls') →
  (ls' = ls ∨ ∃ items, ls' = <[STORAGE_KEY := Doc (Arr items)]> ls) ∧
  <[STORAGE_KEY := value]> ls' = <[STORAGE_KEY := value]> ls.
Proof.
  intros E.
  assert (Hls' : exec getQuestions ls = ls') by (unfold exec; by rewrite E).
  destruct (getQuestions_state ls) as [Hsame|[items Hmig]].
  - rewrite <- Hls', Hsame. split; [by left|done].
  - rewrite <- Hls', Hmig. split; [right; by exists items|].
    apply insert_insert_eq.
Qed.

Lemma write_state (w : writer) (ls : Storage) :
  exec (write w) ls = ls ∨
  ∃ value, exec (write w) ls = <[STORAGE_KEY := value]> ls.
Proof.
  destruct w as [q|i|[batch|v]]; unfold exec; cbn [write];
    unfold saveQuestion, deleteQuestion, importQuestions, mbind, M_bind;
    try (by left);
    destruct (getQuestions ls) as [[e|[qs|v]] ls'] eqn:E;
    unfold setItem, JSON_stringify, throw; cbn [snd];
    destruct (after_read ls ls' _ Empty E) as [[->|[items ->]] _];
    first [by left | right; eexists; reflexivity
          | right; eexists; apply insert_insert_eq].
Qed.

(** X16: [getQuestions] writes only when it migrates.  Either it leaves
    [localStorage] as it is, and then, if the canonical key is absent or
    empty, no legacy key holds a non-empty array and the result is the empty
    collection; or the canonical key is absent or empty, a legacy key holds
    a non-empty array, and that array is returned and written under the
    canonical key. *)
Theorem getQuestions_writes_only_migrating (ls : Storage) :
  (∃ v, getQuestions ls = (inr v, ls) ∧
        (truthy (ls !! STORAGE_KEY) = false →
         v = Arr [] ∧ ∀ k items, k ∈ LEGACY_KEYS → ¬ adoptable ls k items)) ∨
  (truthy (ls !! STORAGE_KEY) = false ∧
   ∃ k items, k ∈ LEGACY_KEYS ∧ adoptable ls k items ∧
     getQuestions ls
     = (inr (Arr items), <[STORAGE_KEY := Doc (Arr items)]> ls)).
Proof. apply getQuestions_outcome. Qed.

(** Legacy keys that hold text that does not parse, an object and an empty
    array: nothing is adopted, nothing is written. *)
Lemma getQuestions_writes_only_migrating_witness :
  let ls : Storage :=
    {[ "interview_questions" := Junk;
       "interview_prep_questions" := Doc (NonArr (JObj [("a", 1)]));
       "interview_app_data" := Doc (Arr []) ]} in
  getQuestions ls = (inr (Arr []), ls).
Proof.
  intros ls.
  destruct (getQuestions_writes_only_migrating ls)
    as [(v & Hrun & Hempty)|(_ & k & items & Hk & [Hitems Hne] & _)].
  - destruct Hempty as [-> _]; [reflexivity|]. exact Hrun.
  - exfalso. unfold LEGACY_KEYS in Hk.
    repeat (apply elem_of_cons in Hk as [->|Hk]);
      [vm_compute in Hitems; try discriminate Hitems..|by inversion Hk].
    injection Hitems as <-. by apply Hne.
Defined.

(** X15: no operation of the service touches a key other than the canonical
    one: what the legacy keys hold is never changed, not even by the
    migration. *)
Theorem legacy_keys_untouched (ls : Storage) (k : string) :
  k ≠ STORAGE_KEY →
  exec getQuestions ls !! k = ls !! k ∧
  ∀ w, exec (write w) ls !! k = ls !! k.
Proof.
  intros Hk. split.
  - destruct (getQuestions_state ls) as [->|[items ->]]; [done|].
    by apply lookup_insert_ne.
  - intros w. destruct (write_state w ls) as [->|[value ->]]; [done|].
    by apply lookup_insert_ne.
Qed.

Lemma legacy_keys_untouched_witness :
  let x := Scenario.record "x" "old Q" "Other" 1 in
  let ls : Storage := {[ "interview_questions" := Doc (Arr [x]) ]} in
  exec getQuestions ls !! "interview_questions" = ls !! "interview_questions" ∧
  ∀ w, exec (write w) ls !! "interview_questions"
       = ls !! "interview_questions".
Proof.
  intros x ls. apply (legacy_keys_untouched ls "interview_questions").
  discriminate.
Defined.

(** X17: when the read that starts a writer yields a collection, migrated
    from a legacy key or not, the writer returns and puts under the
    canonical key that collection with the operation applied; a read of the
    result returns it whatever the legacy keys hold, so that a record
    deleted after the migration does not come back. *)
Theorem legacy_writers (ls : Storage) (qs : list Question) :
  fst (getQuestions ls) = inr (Arr qs) →
  (∀ q, saveQuestion q ls
        = (inr (),
           <[STORAGE_KEY := Doc (Arr (CategoryStorage.upsert q qs))]> ls)) ∧
  (∀ i, deleteQuestion i ls
        = (inr (),
           <[STORAGE_KEY :=
               Doc (Arr (List.filter (λ q, bool_decide (id q ≠ i)) qs))]> ls)) ∧
  (∀ batch, importQuestions (Arr batch) ls
            = (inr (),
               <[STORAGE_KEY :=
                   Doc (Arr (CategoryStorage.merged qs batch))]> ls)) ∧
  (∀ written : list Question,
     getQuestions (<[STORAGE_KEY := Doc (Arr written)]> ls)
     = (inr (Arr written), <[STORAGE_KEY := Doc (Arr written)]> ls)).
Proof.
  intros Hqs.
  destruct (getQuestions ls) as [[e|v] ls'] eqn:E; simpl in Hqs; [done|].
  injection Hqs as ->.
  repeat split.
  - intros q. unfold saveQuestion, mbind, M_bind. rewrite E.
    destruct (after_read ls ls' _
                (Doc (Arr (CategoryStorage.upsert q qs))) E) as [_ <-].
    reflexivity.
  - intros i. unfold deleteQuestion, mbind, M_bind. rewrite E.
    destruct (after_read ls ls' _
                (Doc (Arr (List.filter (λ q, bool_decide (id q ≠ i)) qs))) E)
      as [_ <-].
    reflexivity.
  - intros batch. unfold importQuestions, mbind, M_bind. rewrite E.
    destruct (after_read ls ls' _
                (Doc (Arr (CategoryStorage.merged qs batch))) E) as [_ <-].
    reflexivity.
  - intros written. apply getQuestions_canonical, lookup_insert_eq.
Qed.

(** After the migration of one legacy record, deleting it leaves an empty
    collection, with the legacy key still holding the record. *)
Lemma legacy_writers_witness :
  let x := Scenario.record "x" "old Q" "Other" 1 in
  let ls : Storage := {[ "interview_questions" := Doc (Arr [x]) ]} in
  deleteQuestion "x" ls = (inr (), <[STORAGE_KEY := Doc (Arr [])]> ls) ∧
  getQuestions (exec (deleteQuestion "x") ls)
  = (inr (Arr []), exec (deleteQuestion "x") ls) ∧
  exec (deleteQuestion "x") ls !! "interview_questions" = Some (Doc (Arr [x])).
Proof.
  intros x ls.
  destruct (legacy_writers ls [x]) as (_ & Hdelete & _ & Hread);
    [reflexivity|].
  split; [apply Hdelete|].
  unfold exec. rewrite (Hdelete "x"). split; [apply Hread|reflexivity].
Defined.

End LegacyServiceFacts.

(** ** The start of the application and the seed file *)

Module LaunchFacts.
Import JS CategoryStorage JSProofs CategoryStorageProofs CategoryStorageFacts.
Import Launch.

Lemma init_merging_exec (data : list Question) (h : Heap) :
  data ≠ [] →
  exec (init_merging (Response true (Some (Arr data)))) h
  = exec (importQuestions (Arr data)) h.
Proof.
  intros Hdata. unfold init_merging. rewrite AppProofs.exec_then_refreshAll.
  cbn [loadInitialDataFromProject].
  rewrite bool_decide_eq_true_2; [done|].
  destruct data; [done|simpl; lia].
Qed.

Lemma merged_only (current pre post : list Question) (s e : Question) :
  importable s = true →
  (∀ r, r ∈ post → importable r = true → id r ≠ id s) →
  e ∈ merged current (pre ++ s :: post) → id e = id s → e = s.
Proof.
  intros Hs Hpost He Hid.
  apply (NoDup_fmap_eq id _ e s (merged_NoDup current (pre ++ s :: post)));
    [done| |done].
  by apply merged_last.
Qed.

(** X23: the start-up of [src/unnamed/part_004] merges the seed every time.
    A seed record (the last importable one with its id in the seed file) is
    back in the collection after a start, whether it had been deleted or
    saved with other content, and the collection then has no other record
    with its id. *)
Theorem init_merging_restores (h : Heap) (qs pre post : list Question)
    (s : Question) :
  fst (getQuestions h) = inr (Arr qs) →
  id s ≠ "" → text s ≠ "" →
  (∀ r, r ∈ post → id r ≠ "" → text r ≠ "" → id r ≠ id s) →
  let seed := Response true (Some (Arr (pre ++ s :: post))) in
  (∃ deleted restored,
     fst (getQuestions (exec (deleteQuestion (id s)) h)) = inr (Arr deleted) ∧
     (s ∉ deleted) ∧
     fst (getQuestions (exec (init_merging seed) (exec (deleteQuestion (id s)) h)))
     = inr (Arr restored) ∧
     s ∈ restored) ∧
  (∀ e, id e = id s →
     ∃ restored,
       fst (getQuestions (exec (init_merging seed) (exec (saveQuestion e) h)))
       = inr (Arr restored) ∧
       s ∈ restored ∧
       (e ≠ s → e ∉ restored)).
Proof.
  rewrite getQuestions_run. cbn [fst]. intros [= E] Hid Htext Hpost.
  assert (Hs : importable s = true) by by apply importable_spec.
  assert (Hpost' : ∀ r, r ∈ post → importable r = true → id r ≠ id s).
  { intros r Hr [? ?]%importable_spec. by apply Hpost. }
  assert (Hdata : pre ++ s :: post ≠ []) by by destruct pre.
  split.
  - exists (List.filter (λ q, bool_decide (id q ≠ id s)) qs).
    exists (merged (List.filter (λ q, bool_decide (id q ≠ id s)) qs)
              (pre ++ s :: post)).
    rewrite init_merging_exec by done.
    unfold exec. rewrite (deleteQuestion_run h qs (id s) E). cbn [snd].
    rewrite (importQuestions_run _ _ (pre ++ s :: post)
               (stored_with_questions _ _)).
    cbn [snd]. rewrite !getQuestions_run, !stored_with_questions. cbn [fst].
    split; [done|]. split.
    { intros [_ Hne]%without_elem_of. by apply Hne. }
    split; [done|]. by apply merged_last.
  - intros e He. exists (merged (upsert e qs) (pre ++ s :: post)).
    rewrite init_merging_exec by done.
    unfold exec. rewrite (saveQuestion_run h qs e E). cbn [snd].
    rewrite (importQuestions_run _ _ (pre ++ s :: post)
               (stored_with_questions _ _)).
    cbn [snd]. rewrite getQuestions_run, stored_with_questions. cbn [fst].
    split; [done|]. split; [by apply merged_last|].
    intros Hne Hin. apply Hne. by eapply merged_only.
Qed.

Lemma init_merging_restores_witness :
  let s := Scenario.record "s" "seeded" "NLP" 100 in
  let mine := Scenario.record "m" "my own" "Other" 200 in
  let seed := Response true (Some (Arr [s])) in
  let h := Scenario.holding [mine; s] in
  (∃ deleted restored,
     fst (getQuestions (exec (deleteQuestion (id s)) h)) = inr (Arr deleted) ∧
     (s ∉ deleted) ∧
     fst (getQuestions (exec (init_merging seed) (exec (deleteQuestion (id s)) h)))
     = inr (Arr restored) ∧
     s ∈ restored) ∧
  (∀ e, id e = id s →
     ∃ restored,
       fst (getQuestions (exec (init_merging seed) (exec (saveQuestion e) h)))
       = inr (Arr restored) ∧
       s ∈ restored ∧
       (e ≠ s → e ∉ restored)).
Proof.
  intros s mine seed h.
  apply (init_merging_restores h [mine; s] [] [] s).
  - reflexivity.
  - discriminate.
  - discriminate.
  - intros r Hr. inversion Hr.
Defined.

(** X24: the start-up of [src/App.tsx] merges the seed only into an empty
    store.  With at least one record stored it changes nothing, whatever
    was fetched; with none stored and a seed of at least one record it does
    what [importQuestions] of the seed does; and a seed that could not be
    fetched, was not ok, did not parse or is not an array changes
    nothing. *)
Theorem init_if_empty_guarded (h : Heap) (r : fetched) :
  (∀ q qs, fst (getQuestions h) = inr (Arr (q :: qs)) →
           exec (init_if_empty r) h = h) ∧
  (∀ x data, fst (getQuestions h) = inr (Arr []) →
             r = Response true (Some (Arr (x :: data))) →
             exec (init_if_empty r) h
             = exec (importQuestions (Arr (x :: data))) h) ∧
  (loadInitialDataFromProject r = None → exec (init_if_empty r) h = h).
Proof.
  unfold init_if_empty. rewrite AppProofs.exec_then_refreshAll.
  rewrite getQuestions_run. cbn [fst]. repeat split.
  - intros q qs [= E].
    destruct (loadInitialDataFromProject r) as [data|]; [|done].
    case_bool_decide; [|done].
    unfold exec, mbind, M_bind. by rewrite getQuestions_run, E.
  - intros x data [= E] ->. cbn [loadInitialDataFromProject].
    rewrite bool_decide_eq_true_2 by (simpl; lia).
    unfold exec at 1. unfold mbind, M_bind. by rewrite getQuestions_run, E.
  - by intros ->.
Qed.

Lemma init_if_empty_guarded_witness :
  let s := Scenario.record "s" "seeded" "NLP" 100 in
  let mine := Scenario.record "m" "my own" "Other" 200 in
  let seed := Response true (Some (Arr [s])) in
  exec (init_if_empty seed) (Scenario.holding [mine]) = Scenario.holding [mine] ∧
  exec (init_if_empty seed) Scenario.fresh
  = exec (importQuestions (Arr [s])) Scenario.fresh ∧
  exec (init_if_empty FetchRejected) Scenario.fresh = Scenario.fresh.
Proof.
  intros s mine seed. split; [|split].
  - by apply (proj1 (init_if_empty_guarded (Scenario.holding [mine]) seed)
                mine []).
  - by apply (proj1 (proj2 (init_if_empty_guarded Scenario.fresh seed)) s []).
  - by apply (proj2 (proj2 (init_if_empty_guarded Scenario.fresh FetchRejected))).
Defined.

End LaunchFacts.

(** ** The handlers of [src/unnamed/part_004] *)

Module HandlersFacts.
Import JS CategoryStorage JSProofs CategoryStorageProofs CategoryStorageFacts.
Import Handlers.

(** *** The category screen *)

Lemma handleAddCategory_exec `{R : Runtime} (cats : list string) (name : string)
    (h : Heap) :
  exec (handleAddCategory cats name) h =
  if negb (truthy_string (trim name)) then h
  else if bool_decide (trim name ∈ cats) then h
  else exec (saveCategories (Arr (cats ++ [trim name]))) h.
Proof.
  unfold handleAddCategory.
  destruct (negb (truthy_string (trim name))); [done|].
  by destruct (bool_decide (trim name ∈ cats)).
Qed.

Lemma truthy_string_spec (s : string) : truthy_string s = true ↔ s ≠ "".
Proof. by destruct s. Qed.

(** X18: whatever the built-in [trim] of the platform does,
    [handleAddCategory], run on the list that is stored, never throws; it
    either leaves the store as it is (the trimmed name is empty or in the
    list already) or appends the trimmed name, once, at the end.  A list
    without duplicates stays without duplicates, and the collection is not
    touched. *)
Theorem handleAddCategory_appends `{R : Runtime} (h : Heap) (r : array_ref)
    (cats : list string) (name : string) :
  fst (getCategories h) = inr (r, Arr cats) →
  (∃ shown, fst (handleAddCategory cats name h) = inr shown) ∧
  getQuestions (exec (handleAddCategory cats name) h)
  = (inr (stored_questions h), exec (handleAddCategory cats name) h) ∧
  ((exec (handleAddCategory cats name) h = h ∧
    (trim name = "" ∨ trim name ∈ cats)) ∨
   (fst (getCategories (exec (handleAddCategory cats name) h))
    = inr (OwnArray, Arr (cats ++ [trim name])) ∧
    trim name ≠ "" ∧ (trim name ∉ cats) ∧
    (NoDup cats → NoDup (cats ++ [trim name])))).
Proof.
  intros Hcats. split; [|split].
  - unfold handleAddCategory.
    destruct (negb (truthy_string (trim name))); [by eexists|].
    destruct (bool_decide (trim name ∈ cats)); by eexists.
  - rewrite handleAddCategory_exec.
    destruct (negb (truthy_string (trim name))); [apply getQuestions_run|].
    destruct (bool_decide (trim name ∈ cats)); [apply getQuestions_run|].
    by rewrite getQuestions_run.
  - rewrite handleAddCategory_exec.
    destruct (truthy_string (trim name)) eqn:Hname; simpl.
    + apply truthy_string_spec in Hname. case_bool_decide as Hin.
      * left. split; [done|by right].
      * right. split; [done|]. split; [done|]. split; [done|].
        intros Hnd. apply NoDup_app. split; [done|]. split.
        -- intros x Hx Hx'. apply list_elem_of_singleton in Hx' as ->. done.
        -- apply NoDup_singleton.
    + left. split; [done|]. left. by destruct (trim name).
Qed.

Lemma handleAddCategory_appends_witness :
  let add := handleAddCategory (R := ascii_runtime) DEFAULT_CATEGORIES
               "  Databases " in
  (∃ shown, fst (add Scenario.fresh) = inr shown) ∧
  getQuestions (exec add Scenario.fresh)
  = (inr (stored_questions Scenario.fresh), exec add Scenario.fresh) ∧
  ((exec add Scenario.fresh = Scenario.fresh ∧
    (ascii_trim "  Databases " = "" ∨
     ascii_trim "  Databases " ∈ DEFAULT_CATEGORIES)) ∨
   (fst (getCategories (exec add Scenario.fresh))
    = inr (OwnArray, Arr (DEFAULT_CATEGORIES ++ ["Databases"])) ∧
    ascii_trim "  Databases " ≠ "" ∧
    (ascii_trim "  Databases " ∉ DEFAULT_CATEGORIES) ∧
    (NoDup DEFAULT_CATEGORIES →
     NoDup (DEFAULT_CATEGORIES ++ ["Databases"])))).
Proof.
  intros add.
  by apply (handleAddCategory_appends (R := ascii_runtime) Scenario.fresh
              DefaultsArray DEFAULT_CATEGORIES "  Databases ").
Defined.

Lemma handleRenameCat_exec `{R : Runtime} (oldName newName : string)
    (h : Heap) :
  exec (handleRenameCat oldName newName) h =
  if negb (truthy_string (trim newName)) || bool_decide (oldName = newName)
  then h
  else exec (renameCategory oldName newName) h.
Proof.
  unfold handleRenameCat.
  destruct (negb (truthy_string (trim newName)) || bool_decide (oldName = newName));
    [done|].
  apply AppProofs.exec_then_refreshAll.
Qed.

Lemma handleRemoveCat_exec (confirmed : bool) (name : string) (h : Heap) :
  exec (App.handleRemoveCat confirmed name) h = h ∨
  exec (App.handleRemoveCat confirmed name) h = exec (removeCategory name) h.
Proof.
  unfold App.handleRemoveCat. destruct (decide (name = "Other")); [by left|].
  destruct confirmed; [|by left]. right.
  apply AppProofs.exec_then_refreshAll.
Qed.

Lemma stored_list_after_rename (h : Heap) (r : array_ref) (cats : list string)
    (oldName newName : string) :
  fst (getCategories h) = inr (r, Arr cats) →
  fst (getCategories (exec (renameCategory oldName newName) h))
  = inr (r, Arr cats) ∨
  ∃ index, fst (getCategories (exec (renameCategory oldName newName) h))
           = inr (OwnArray, Arr (<[index := newName]> cats)).
Proof.
  intros Hcats. destruct (decide (oldName ∈ cats)) as [Hold|Hold].
  - destruct (indexOf_first cats oldName Hold) as (index & Hidx & _).
    right. exists index. rewrite getCategories_run.
    by rewrite (renameCategory_categories h r cats oldName newName index).
  - left. unfold exec.
    by rewrite (renameCategory_skips h r cats oldName newName Hcats Hold).
Qed.

(** X19: with the built-in [trim] of a platform, for which trimming a
    trimmed text changes nothing, the three handlers of the category screen
    never put a blank label (one that trims to the empty string) into a
    category list that has none: not [handleAddCategory] run on the stored
    list, not [handleRenameCat], not [handleRemoveCat]. *)
Theorem handlers_store_no_blank_label `{R : Runtime} (HR : Faithful R)
    (h : Heap) (r : array_ref) (cats : list string) :
  fst (getCategories h) = inr (r, Arr cats) →
  Forall (λ label, ¬ blank label) cats →
  ∀ h',
    (∃ name, h' = exec (handleAddCategory cats name) h) ∨
    (∃ oldName newName, h' = exec (handleRenameCat oldName newName) h) ∨
    (∃ confirmed name, h' = exec (App.handleRemoveCat confirmed name) h) →
    ∃ r' cats',
      fst (getCategories h') = inr (r', Arr cats') ∧
      Forall (λ label, ¬ blank label) cats'.
Proof.
  intros Hcats Hgood h' Hh'.
  destruct Hh' as [[name ->]|[Hh'|Hh']];
    [|destruct Hh' as [oldName [newName ->]]
     |destruct Hh' as [confirmed [name ->]]].
  - rewrite handleAddCategory_exec.
    destruct (truthy_string (trim name)) eqn:Hname; simpl; [|by exists r, cats].
    case_bool_decide; [by exists r, cats|].
    exists OwnArray, (cats ++ [trim name]). split; [done|].
    apply Forall_app. split; [done|]. constructor; [|done].
    unfold blank. rewrite (trim_trim R HR). by apply truthy_string_spec.
  - rewrite handleRenameCat_exec.
    destruct (truthy_string (trim newName)) eqn:Hname; simpl; [|by exists r, cats].
    case_bool_decide; [by exists r, cats|].
    destruct (stored_list_after_rename h r cats oldName newName Hcats)
      as [Hsame|[index Hnew]]; [by exists r, cats|].
    exists OwnArray, (<[index := newName]> cats). split; [done|].
    apply Forall_insert; [done|]. unfold blank. by apply truthy_string_spec.
  - destruct (handleRemoveCat_exec confirmed name h) as [-> | ->];
      [by exists r, cats|].
    exists OwnArray, (List.filter (λ c, bool_decide (c ≠ name)) cats).
    rewrite getCategories_run.
    rewrite (removeCategory_categories name h r cats Hcats). split; [done|].
    apply Forall_forall. intros c [Hc _]%list_elem_of_In%filter_In.
    by apply (proj1 (Forall_forall _ _) Hgood c), list_elem_of_In.
Qed.

Lemma handlers_store_no_blank_label_witness :
  ∃ r' cats',
    fst (getCategories
           (exec (handleAddCategory (R := ascii_runtime) DEFAULT_CATEGORIES
                    "  Databases ") Scenario.fresh))
    = inr (r', Arr cats') ∧
    Forall (λ label, ¬ blank (R := ascii_runtime) label) cats'.
Proof.
  apply (handlers_store_no_blank_label (R := ascii_runtime)
           ascii_runtime_faithful Scenario.fresh DefaultsArray
           DEFAULT_CATEGORIES).
  - reflexivity.
  - repeat constructor; discriminate.
  - left. by exists "  Databases ".
Defined.

(** *** The form *)

Lemma handleSave_blank `{R : Runtime} (formData : QuestionDraft.t)
    (currentQuestion : option Question) (categorized : string) (now : Z)
    (uuid : string) (h : Heap) :
  trim (QuestionDraft.text formData) = "" →
  handleSave formData currentQuestion categorized now uuid h = (inr (), h).
Proof. intros Hblank. unfold handleSave. by rewrite Hblank. Qed.

Lemma handleSave_exec `{R : Runtime} (formData : QuestionDraft.t)
    (currentQuestion : option Question) (categorized : string) (now : Z)
    (uuid : string) (h : Heap) :
  trim (QuestionDraft.text formData) ≠ "" →
  ∃ q,
    exec (handleSave formData currentQuestion categorized now uuid) h
    = exec (saveQuestion q) h ∧
    id q = match currentQuestion with Some c => id c | None => uuid end ∧
    createdAt q
    = match currentQuestion with Some c => createdAt c | None => now end ∧
    updatedAt q = now ∧
    category q
    = match currentQuestion with
      | None => if bool_decide (QuestionDraft.category formData = "Other")
                then categorized else QuestionDraft.category formData
      | Some _ => QuestionDraft.category formData
      end ∧
    text q = QuestionDraft.text formData ∧
    answer q = QuestionDraft.answer formData.
Proof.
  intros Htext%truthy_string_spec. unfold handleSave. rewrite Htext. simpl.
  rewrite AppProofs.exec_then_refreshAll. eexists. split; [reflexivity|].
  done.
Qed.

(** X20: whatever the built-in [trim] of the platform does, saving a form
    whose text it does not trim to nothing, while a record is being edited,
    puts the new content where the record with that id stands; the id and
    [createdAt] are those of the edited record, [updatedAt] is the time of
    the save, the category is the one of the form (it is not categorised
    anew), and every other record stays in its place. *)
Theorem handleSave_edit `{R : Runtime} (h : Heap) (qs : list Question)
    (formData : QuestionDraft.t) (current stored : Question)
    (categorized : string) (now : Z) (uuid : string) (i : nat) :
  fst (getQuestions h) = inr (Arr qs) →
  NoDup (id <$> qs) →
  qs !! i = Some stored →
  id stored = id current →
  trim (QuestionDraft.text formData) ≠ "" →
  ∃ q,
    fst (getQuestions
           (exec (handleSave formData (Some current) categorized now uuid) h))
    = inr (Arr (<[i := q]> qs)) ∧
    id q = id current ∧
    createdAt q = createdAt current ∧
    updatedAt q = now ∧
    category q = QuestionDraft.category formData ∧
    text q = QuestionDraft.text formData ∧
    answer q = QuestionDraft.answer formData.
Proof.
  rewrite getQuestions_run. cbn [fst]. intros [= E] Hnd Hi Hid Htext.
  destruct (handleSave_exec formData (Some current) categorized now uuid h Htext)
    as (q & -> & Hq & Hrest).
  exists q. unfold exec. rewrite (saveQuestion_run h qs q E). cbn [snd].
  rewrite getQuestions_run, stored_with_questions. cbn [fst].
  rewrite (upsert_existing q stored qs i) by (done || congruence).
  done.
Qed.

Lemma handleSave_edit_witness :
  let a := Scenario.record "a" "attention" "NLP" 100 in
  let b := Scenario.record "b" "tell me about you" "Behavioral" 200 in
  let formData :=
    {| QuestionDraft.text := "attention, revised"; QuestionDraft.answer := "";
       QuestionDraft.category := "Other"; QuestionDraft.companyTag := "";
       QuestionDraft.isAiGenerated := false; QuestionDraft.sources := None |} in
  ∃ q,
    fst (getQuestions
           (exec (handleSave (R := ascii_runtime) formData (Some a)
                    "Algorithm" 500 "fresh-id")
              (Scenario.holding [b; a])))
    = inr (Arr (<[1%nat := q]> [b; a])) ∧
    id q = id a ∧
    createdAt q = createdAt a ∧
    updatedAt q = 500 ∧
    category q = "Other" ∧
    text q = "attention, revised" ∧
    answer q = "".
Proof.
  intros a b formData.
  apply (handleSave_edit (R := ascii_runtime) (Scenario.holding [b; a]) [b; a]
           formData a a "Algorithm" 500 "fresh-id" 1).
  - reflexivity.
  - compute_done.
  - reflexivity.
  - reflexivity.
  - discriminate.
Defined.

(** X21: whatever the built-in [trim] of the platform does, saving the form
    for a new record, with an id that no stored record has, puts the record
    in front of the collection with [createdAt] and [updatedAt] both the
    time of the save; its category is the answer of the categoriser when the
    form says ["Other"], and the category of the form otherwise.  A form
    whose text trims to nothing saves nothing. *)
Theorem handleSave_new `{R : Runtime} (h : Heap) (qs : list Question)
    (formData : QuestionDraft.t) (categorized : string) (now : Z)
    (uuid : string) :
  fst (getQuestions h) = inr (Arr qs) →
  uuid ∉ id <$> qs →
  (trim (QuestionDraft.text formData) = "" →
   ∀ currentQuestion,
     handleSave formData currentQuestion categorized now uuid h = (inr (), h)) ∧
  (trim (QuestionDraft.text formData) ≠ "" →
   ∃ q,
     fst (getQuestions (exec (handleSave formData None categorized now uuid) h))
     = inr (Arr (q :: qs)) ∧
     id q = uuid ∧
     createdAt q = now ∧
     updatedAt q = now ∧
     (QuestionDraft.category formData = "Other" → category q = categorized) ∧
     (QuestionDraft.category formData ≠ "Other" →
      category q = QuestionDraft.category formData) ∧
     text q = QuestionDraft.text formData).
Proof.
  rewrite getQuestions_run. cbn [fst]. intros [= E] Hnew. split.
  - intros Hblank currentQuestion. by apply handleSave_blank.
  - intros Htext.
    destruct (handleSave_exec formData None categorized now uuid h Htext)
      as (q & -> & Hq & Hc & Hu & Hcat & Ht & _).
    exists q. unfold exec. rewrite (saveQuestion_run h qs q E). cbn [snd].
    rewrite getQuestions_run, stored_with_questions. cbn [fst].
    rewrite upsert_new.
    + repeat split; try done.
      * intros Hother. by rewrite Hcat, bool_decide_eq_true_2.
      * intros Hother. by rewrite Hcat, bool_decide_eq_false_2.
    + intros r Hr Heq. apply Hnew. rewrite <- Hq, <- Heq.
      by apply list_elem_of_fmap_2.
Qed.

Lemma handleSave_new_witness :
  let a := Scenario.record "a" "attention" "NLP" 100 in
  let formData :=
    {| QuestionDraft.text := "what is a monad"; QuestionDraft.answer := "";
       QuestionDraft.category := "Other"; QuestionDraft.companyTag := "";
       QuestionDraft.isAiGenerated := false; QuestionDraft.sources := None |} in
  ∃ q,
    fst (getQuestions
           (exec (handleSave (R := ascii_runtime) formData None "Algorithm"
                    500 "fresh-id")
              (Scenario.holding [a])))
    = inr (Arr [q; a]) ∧
    id q = "fresh-id" ∧ createdAt q = 500 ∧ updatedAt q = 500 ∧
    category q = "Algorithm".
Proof.
  intros a formData.
  destruct (handleSave_new (R := ascii_runtime) (Scenario.holding [a]) [a]
              formData "Algorithm" 500 "fresh-id") as [_ Hsaved];
    [reflexivity|compute_done|].
  destruct Hsaved as (q & Hq & Hid & Hc & Hu & Hcat & _); [discriminate|].
  exists q. repeat split; try done. by apply Hcat.
Defined.

(** *** Importing a file *)

(** X22: [handleFileChange] lets no exception out.  A [.json] file whose
    text does not parse, or parses to something that is not an array, leaves
    the store as it was and raises the alert; so does a spreadsheet that the
    library rejects; a file of another kind, or no file, does nothing. *)
Theorem handleFileChange_contained (file : option string)
    (data : DOMString Question) (sheet : exn + list Question) (h : Heap) :
  (∃ shown h', handleFileChange file data sheet h = (inr shown, h')) ∧
  (∀ name, file = Some name → endsWith name ".json" = true →
           (∀ batch, data ≠ Doc (Arr batch)) →
           handleFileChange file data sheet h = (inr Alert, h)) ∧
  (∀ name e, file = Some name → endsWith name ".json" = false →
             sheet = inl e →
             handleFileChange file data sheet h = (inr Alert, h) ∨
             handleFileChange file data sheet h = (inr Silent, h)) ∧
  (file = None → handleFileChange file data sheet h = (inr Silent, h)).
Proof.
  split; [|split; [|split]].
  - destruct file as [name|]; [|by eexists _, _].
    unfold handleFileChange, try_catch.
    match goal with |- context [match ?m h with _ => _ end] =>
      destruct (m h) as [[e|shown] h'] end; by eexists _, _.
  - intros name -> Hjson Hdata. unfold handleFileChange, try_catch.
    rewrite Hjson. unfold mbind, M_bind.
    destruct data as [| |[batch|v]]; try done.
    exfalso. by apply (Hdata batch).
  - intros name e -> Hjson ->. unfold handleFileChange, try_catch.
    rewrite Hjson.
    destruct (endsWith name ".xlsx" || endsWith name ".xls"); [by left|by right].
  - by intros ->.
Qed.

Lemma handleFileChange_contained_witness :
  handleFileChange (Some "backup.json") (Doc (NonArr (JObj [("a", 1)])))
    (inl TypeError) (Scenario.holding [Scenario.record "a" "kept" "NLP" 100])
  = (inr Alert, Scenario.holding [Scenario.record "a" "kept" "NLP" 100]).
Proof.
  apply (proj1 (proj2 (handleFileChange_contained (Some "backup.json")
                         (Doc (NonArr (JObj [("a", 1)]))) (inl TypeError)
                         (Scenario.holding [Scenario.record "a" "kept" "NLP" 100])))
           "backup.json").
  - reflexivity.
  - reflexivity.
  - discriminate.
Defined.

End HandlersFacts.

(** ** More on the filtered view of [src/App.tsx] *)

Module FilterFacts.
Import JS App AppProofs.

Lemma filter_all {A} (f : A → bool) (l : list A) :
  (∀ x, x ∈ l → f x = true) → List.filter f l = l.
Proof.
  induction l as [|x l IH]; intros Hall; simpl; [done|].
  rewrite Hall by by left. rewrite IH; [done|].
  intros y Hy. apply Hall. by right.
Qed.

Lemma filter_sublist {A} (f g : A → bool) (l : list A) :
  (∀ x, f x = true → g x = true) →
  sublist (List.filter f l) (List.filter g l).
Proof.
  intros Hfg. induction l as [|x l IH]; simpl; [constructor|].
  destruct (f x) eqn:Hf.
  - rewrite (Hfg x Hf). by constructor.
  - destruct (g x); [by constructor|done].
Qed.

(** X25: with the built-in [toLowerCase] of any platform that treats texts
    of ASCII as the standard says: with the category filter on ["All"], the
    date filter on ["all"] and an empty search text, the filtered view is
    the whole collection; and whatever the settings, two search texts of
    ASCII that are equal up to the case of their letters give the same
    view. *)
Theorem filteredQuestions_unfiltered `{R : Runtime} (HR : Faithful R) (now : Z)
    (questions : list Question) :
  filteredQuestions now questions "All" "all" "" = questions ∧
  ∀ selectedCategory dateFilter search1 search2,
    ascii_only search1 →
    ascii_only search2 →
    equal_ignoring_case search1 search2 →
    filteredQuestions now questions selectedCategory dateFilter search1
    = filteredQuestions now questions selectedCategory dateFilter search2.
Proof.
  split.
  - apply filter_all. intros q _. apply (matches_spec HR).
    split; [by left|]. split; [|done].
    left. rewrite (toLowerCase_ascii R HR "" ascii_only_empty).
    apply is_substring_empty.
  - intros selectedCategory dateFilter search1 search2 H1 H2 Heq.
    unfold filteredQuestions. apply filter_ext. intros q. unfold matches.
    rewrite (toLowerCase_ascii R HR _ H1), (toLowerCase_ascii R HR _ H2).
    apply ascii_toLowerCase_equal in Heq. by rewrite Heq.
Qed.

Lemma filteredQuestions_unfiltered_witness :
  let a := Scenario.record "a" "Attention is all you need" "NLP" 100 in
  let b := Scenario.record "b" "Gradient descent" "NLP" 200 in
  filteredQuestions (R := ascii_runtime) 1000 [a; b] "All" "all" "" = [a; b] ∧
  filteredQuestions (R := ascii_runtime) 1000 [a; b] "NLP" "all" "aTTention"
  = filteredQuestions (R := ascii_runtime) 1000 [a; b] "NLP" "all" "Attention".
Proof.
  intros a b.
  destruct (filteredQuestions_unfiltered (R := ascii_runtime)
              JSProofs.ascii_runtime_faithful 1000 [a; b]) as [Hall Hcase].
  split; [exact Hall|].
  apply Hcase.
  - repeat constructor.
  - repeat constructor.
  - apply ascii_toLowerCase_equal. reflexivity.
Defined.

Lemma DatePredicate_widens (now : Z) (q : Question) :
  (DatePredicate now "today" q → DatePredicate now "week" q) ∧
  (DatePredicate now "week" q → DatePredicate now "month" q) ∧
  (DatePredicate now "month" q → DatePredicate now "year" q).
Proof. unfold DatePredicate, dayMillis. simpl. lia. Qed.

(** X26: the date buckets are nested: for the same category filter and
    search text, what ["today"] shows is a subsequence of what ["week"]
    shows, ["week"] of ["month"], ["month"] of ["year"], and every date
    filter of ["all"]. *)
Theorem date_buckets_nested `{R : Runtime} (now : Z) (questions : list Question)
    (selectedCategory searchQuery : string) :
  let view := λ dateFilter,
    filteredQuestions now questions selectedCategory dateFilter searchQuery in
  sublist (view "today") (view "week") ∧
  sublist (view "week") (view "month") ∧
  sublist (view "month") (view "year") ∧
  ∀ dateFilter, sublist (view dateFilter) (view "all").
Proof.
  intros view. unfold view, filteredQuestions.
  repeat split; try intros dateFilter; apply filter_sublist; intros q;
    unfold matches; cbn zeta; rewrite !andb_true_iff, !matchDate_spec;
    intros [[Hc Hd] Ht]; (split; [split; [done|]|done]).
  - by apply DatePredicate_widens.
  - by apply DatePredicate_widens.
  - by apply DatePredicate_widens.
  - done.
Qed.

End FilterFacts.

(** ** [src/services/geminiService.ts]: the category tag *)

Module GeminiFacts.
Import JS Gemini App AppProofs.

Lemma append_assoc (a b c : string) : (a +:+ b) +:+ c = a +:+ b +:+ c.
Proof.
  induction a as [|x a IH]; [done|].
  rewrite !append_cons. by rewrite IH.
Qed.

(** A prefix of [a] followed by [x] that does not have [x] in it is a
    prefix of [a]. *)
Lemma prefix_before (x : ascii) (t a b post : string) :
  Forall (λ c, c ≠ x) (list_ascii_of_string t) →
  a +:+ String x b = t +:+ post →
  ∃ post', a = t +:+ post'.
Proof.
  revert a. induction t as [|d t IH]; intros a Ht H.
  - by exists a.
  - inversion Ht as [|? ? Hd Ht']; subst.
    destruct a as [|e a]; rewrite !append_cons in H.
    + rewrite append_empty in H. congruence.
    + injection H as -> H. destruct (IH a Ht' H) as [post' ->].
      by exists post'.
Qed.

Lemma line_terminators_unbracketed :
  Forall (λ t, Forall (λ c, c ≠ "]"%char) (list_ascii_of_string t))
    line_terminators.
Proof. repeat constructor; discriminate. Qed.

Lemma line_terminator_ahead_spec (s : string) :
  line_terminator_ahead s = true ↔
  ∃ t post, t ∈ line_terminators ∧ s = t +:+ post.
Proof.
  unfold line_terminator_ahead. rewrite existsb_exists. split.
  - intros (t & Ht%list_elem_of_In & [post Hs]%startsWith_spec).
    by exists t, post.
  - intros (t & post & Ht & Hs). exists t.
    split; [by apply list_elem_of_In|]. apply startsWith_spec. by exists post.
Qed.

Lemma has_line_terminator_spec (s : string) :
  has_line_terminator s = true ↔
  ∃ t, t ∈ line_terminators ∧ is_substring t s.
Proof.
  unfold has_line_terminator. rewrite existsb_exists. split.
  - intros (t & Ht%list_elem_of_In & Hs%includes_spec). by exists t.
  - intros (t & Ht & Hs). exists t.
    split; [by apply list_elem_of_In|]. by apply includes_spec.
Qed.

Lemma has_line_terminator_tail (c : ascii) (s : string) :
  has_line_terminator (String c s) = false → has_line_terminator s = false.
Proof.
  intros H. apply not_true_is_false. intros Hs. apply not_true_iff_false in H.
  apply H, has_line_terminator_spec.
  apply has_line_terminator_spec in Hs as (t & Ht & pre & post & ->).
  exists t. split; [done|]. by exists (String c pre), post.
Qed.

(** The run up to the bracket is matched when no line terminator is in
    it. *)
Lemma match_group_closed (group rest : string) :
  Forall (λ c, c ≠ "]"%char) (list_ascii_of_string group) →
  has_line_terminator group = false →
  match_group (group +:+ String "]" rest) = Some (group, rest).
Proof.
  induction group as [|c group IH]; intros Hall Hlt.
  - reflexivity.
  - inversion Hall as [|? ? Hc Hall']; subst.
    rewrite append_cons. cbn [match_group]. rewrite decide_False by done.
    destruct (line_terminator_ahead (String c (group +:+ String "]" rest)))
      eqn:Hahead.
    + exfalso. apply not_true_iff_false in Hlt. apply Hlt.
      apply line_terminator_ahead_spec in Hahead as (t & post & Ht & Hs).
      apply has_line_terminator_spec. exists t. split; [done|].
      rewrite <- append_cons in Hs.
      destruct (prefix_before "]" t (String c group) rest post) as [post' E];
        [|done|].
      * by apply (proj1 (Forall_forall _ _) line_terminators_unbracketed).
      * exists "", post'. by rewrite append_empty.
    + by rewrite (IH Hall' (has_line_terminator_tail c group Hlt)).
Qed.

(** The match stops at a line terminator that comes before the bracket. *)
Lemma match_group_broken (group rest : string) :
  Forall (λ c, c ≠ "]"%char) (list_ascii_of_string group) →
  has_line_terminator group = true →
  match_group (group +:+ String "]" rest) = None.
Proof.
  induction group as [|c group IH]; intros Hall Hlt.
  - by vm_compute in Hlt.
  - inversion Hall as [|? ? Hc Hall']; subst.
    rewrite append_cons. cbn [match_group]. rewrite decide_False by done.
    destruct (line_terminator_ahead (String c (group +:+ String "]" rest)))
      eqn:Hahead; [done|].
    rewrite IH; [done..|].
    apply has_line_terminator_spec in Hlt as (t & Ht & pre & post & E).
    destruct pre as [|d pre].
    + exfalso. apply not_true_iff_false in Hahead. apply Hahead.
      apply line_terminator_ahead_spec.
      exists t, (post +:+ String "]" rest). split; [done|].
      rewrite append_empty in E.
      by rewrite <- append_cons, E, append_assoc.
    + rewrite append_cons in E. injection E as <- ->.
      apply has_line_terminator_spec. exists t. split; [done|].
      by exists pre, post.
Qed.

Lemma match_group_open (s : string) :
  Forall (λ c, c ≠ "]"%char) (list_ascii_of_string s) →
  match_group s = None.
Proof.
  induction s as [|c s IH]; intros Hall; [done|].
  inversion Hall as [|? ? Hc Hall']; subst.
  cbn [match_group]. rewrite decide_False by done.
  destruct (line_terminator_ahead (String c s)); [done|]. by rewrite IH.
Qed.

(** X27: how the answer of the model is split, whatever the built-in [trim]
    of the platform does.  Take a text that opens with ["["], a run without
    ["]"], and ["]"].  When no line terminator (line feed, carriage return,
    U+2028, U+2029) is in the run, the run, trimmed, is the category and the
    rest, trimmed, is the answer; when one is, the category is ["Other"] and
    the answer is the whole text, untrimmed.  A text that does not open with
    ["["], or whose bracket is never closed, gives the category ["Other"]
    and the whole text, untrimmed, as well. *)
Theorem split_answer_tag `{R : Runtime} :
  (∀ group rest,
     Forall (λ c, c ≠ "]"%char) (list_ascii_of_string group) →
     (has_line_terminator group = false →
      split_answer (String "[" (group +:+ String "]" rest))
      = (trim group, trim rest)) ∧
     (has_line_terminator group = true →
      split_answer (String "[" (group +:+ String "]" rest))
      = ("Other", String "[" (group +:+ String "]" rest)))) ∧
  (∀ c s, c ≠ "["%char → split_answer (String c s) = ("Other", String c s)) ∧
  split_answer "" = ("Other", "") ∧
  (∀ s, Forall (λ c, c ≠ "]"%char) (list_ascii_of_string s) →
        split_answer (String "[" s) = ("Other", String "[" s)).
Proof.
  split; [|split; [|split]].
  - intros group rest Hall. unfold split_answer, categoryMatch.
    rewrite decide_True by done. split; intros Hlt.
    + by rewrite match_group_closed.
    + by rewrite match_group_broken.
  - intros c s Hc. unfold split_answer, categoryMatch.
    by rewrite decide_False.
  - reflexivity.
  - intros s Hall. unfold split_answer, categoryMatch.
    rewrite decide_True by done. by rewrite match_group_open.
Qed.

Lemma split_answer_tag_witness :
  split_answer (R := ascii_runtime) "[ NLP ]  Attention weighs the tokens. "
  = ("NLP", "Attention weighs the tokens.") ∧
  split_answer (R := ascii_runtime)
    (String "[" ("N" +:+ line_separator +:+ "LP" +:+ "] Attention"))
  = ("Other", String "[" ("N" +:+ line_separator +:+ "LP" +:+ "] Attention")) ∧
  split_answer (R := ascii_runtime) "No tag here" = ("Other", "No tag here").
Proof.
  destruct (split_answer_tag (R := ascii_runtime)) as (Htag & Hplain & _).
  split; [|split].
  - apply (Htag " NLP " "  Attention weighs the tokens. ");
      [repeat constructor; discriminate|reflexivity].
  - apply (Htag ("N" +:+ line_separator +:+ "LP") " Attention");
      [repeat constructor; discriminate|reflexivity].
  - apply Hplain. discriminate.
Defined.

End GeminiFacts.
